(** * doe-chatbot: ingestion orchestration and chat message rendering

    A shallow embedding of the parts of the repository that the
    specification talks about:

    - [Message]: [parseMessageContent] of
      [frontend/src/components/chat/Message.tsx];
    - [Chunking]: the chunking environment of the embeddings container
      ([lib/infra/ingestion/pipeline.ts]);
    - [Stack]: the branch of [FrancisChatbotStack] that chooses between the
      knowledge base and the ingestion pipeline;
    - [CacheIndex]: the key schema of the cache table and of its index GSI1;
    - [Pipeline]: the Step Functions definition of the ingestion state
      machine and its execution;
    - [ChangeDetection]: the bucket notifications of the cache update
      function and the change cache they feed. *)

From Stdlib Require Import ZArith Lia Bool Ascii String List Permutation.
From Stdlib Require Import DecimalString OrdersEx.
From stdpp Require Import base option list sorting gmap strings.
Import ListNotations.
Local Open Scope string_scope.
Local Open Scope list_scope.
Local Open Scope nat_scope.

(** Decimal rendering of a natural number, as a JS template literal
    renders an array index. *)
Definition natToString (n : nat) : string :=
  NilZero.string_of_uint (Nat.to_uint n).

(** The last element of a list, if any. *)
Fixpoint lastOpt {A} (l : list A) : option A :=
  match l with
  | [] => None
  | [x] => Some x
  | _ :: l' => lastOpt l'
  end.

(* ===================================================================== *)
(** * Chat message rendering (Message.tsx) *)
(* ===================================================================== *)

Module Message.

(** The text of a message is a [string]: a sequence of code units.  The
    three patterns are made of ASCII characters only; every other code
    unit is just a character outside the classes of digits and of the
    closing parenthesis. *)

(** ** The three media patterns

    Each pattern is matched at the head of a suffix of the text; a match
    returns the length of the whole match and the text of capture group 1.
    None of the three patterns gains anything from backtracking: the
    character after a greedy run is never a member of the class of the
    run. *)

(** A literal prefix. *)
Fixpoint lit (p s : string) : option string :=
  match p with
  | EmptyString => Some s
  | String c p' =>
      match s with
      | String d s' => if Ascii.eqb c d then lit p' s' else None
      | EmptyString => None
      end
  end.

(** A greedy run of characters of a class: the run and what follows it. *)
Fixpoint many (cls : ascii -> bool) (s : string) : string * string :=
  match s with
  | String c s' =>
      if cls c then let '(m, r) := many cls s' in (String c m, r)
      else (EmptyString, s)
  | EmptyString => (EmptyString, EmptyString)
  end.

(** The class of decimal digits. *)
Definition isDigit (c : ascii) : bool :=
  (48 <=? nat_of_ascii c) && (nat_of_ascii c <=? 57).

(** The class of every character but the closing parenthesis. *)
Definition notParen (c : ascii) : bool := negb (Ascii.eqb c ")").

(** [timestampPattern]: the literal text of the opening, one or more
    digits, an optional dot, any number of digits (these three are capture
    group 1) and a closing parenthesis. *)
Definition timestampPattern (s : string) : option (nat * string) :=
  match lit "(!?#Timestamp:" s with
  | None => None
  | Some r1 =>
      let '(ds, r2) := many isDigit r1 in
      match ds with
      | EmptyString => None
      | _ =>
          let '(dot, r3) :=
            match r2 with
            | String "." r => (".", r)
            | _ => ("", r2)
            end in
          let '(fs, r4) := many isDigit r3 in
          match r4 with
          | String ")" _ =>
              Some (14 + String.length ds + String.length dot
                    + String.length fs + 1,
                    (ds ++ dot ++ fs)%string)
          | _ => None
          end
      end
  end.

(** [videoPattern] and [imagePattern]: the literal text of the opening
    with the tag Video or Image, then https:// followed by one or more
    characters other than a closing parenthesis (capture group 1), and a
    closing parenthesis. *)
Definition mediaPattern (tag : string) (s : string) : option (nat * string) :=
  match lit ("(!?#" ++ tag ++ ":")%string s with
  | None => None
  | Some r1 =>
      match lit "https://" r1 with
      | None => None
      | Some r2 =>
          let '(u, r3) := many notParen r2 in
          match u, r3 with
          | String _ _, String ")" _ =>
              Some (4 + String.length tag + 1 + 8 + String.length u + 1,
                    ("https://" ++ u)%string)
          | _, _ => None
          end
      end
  end.

Definition videoPattern := mediaPattern "Video".
Definition imagePattern := mediaPattern "Image".

(** ** The global [exec] loop *)

(** One result of [pattern.exec(text)]: [index], the length of the match
    and capture group 1. *)
Record RegExpMatch := { index : nat; matchLength : nat; group1 : string }.

(** [while ((m = pattern.exec(text)) !== null)]: the matches of a global
    pattern, leftmost first, each search resuming at the end of the
    previous match ([lastIndex]).  [i] is the index of the head of [s] in
    the text and [skip] the number of characters still covered by the
    previous match. *)
Fixpoint execAll (pattern : string -> option (nat * string))
         (s : string) (i skip : nat) : list RegExpMatch :=
  match s with
  | EmptyString => []
  | String _ s' =>
      match skip with
      | S k => execAll pattern s' (S i) k
      | O =>
          match pattern s with
          | Some (len, cap) =>
              {| index := i; matchLength := len; group1 := cap |}
                :: execAll pattern s' (S i) (len - 1)
          | None => execAll pattern s' (S i) 0
          end
      end
  end.

Section Parse.

(** JS numbers and [parseFloat] are kept abstract: the rendering only
    stores the number. *)
Variable number : Type.
Variable parseFloat : string -> number.

Inductive ReactNode :=
| TextNode (s : string)
| Fragment (key : string)
| VideoRenderer (key : string) (url : string) (timestamp : option number)
| ImageRenderer (key : string) (url : string).

(** An element of [allMatches]. *)
Record MatchEntry := { start : nat; end_ : nat; node : ReactNode }.

(** The first loop: every timestamp tag overwrites [timestamp] and is
    marked for removal by an empty fragment. *)
Definition timestampStep (acc : option number * list MatchEntry)
           (m : RegExpMatch) : option number * list MatchEntry :=
  let '(timestamp, allMatches) := acc in
  (Some (parseFloat (group1 m)),
   allMatches ++
     [{| start := index m; end_ := index m + matchLength m;
         node := Fragment ("timestamp-" ++ natToString (index m))%string |}]).

Definition timestampLoop (ms : list RegExpMatch)
  : option number * list MatchEntry :=
  fold_left timestampStep ms (None, []).

(** The second loop: one [VideoRenderer] per video tag, all with the value
    [timestamp] has after the first loop. *)
Definition videoEntries (timestamp : option number) (ms : list RegExpMatch)
  : list MatchEntry :=
  map (fun m =>
         {| start := index m; end_ := index m + matchLength m;
            node := VideoRenderer ("vid-" ++ natToString (index m))%string
                      (group1 m) timestamp |}) ms.

(** The third loop. *)
Definition imageEntries (ms : list RegExpMatch) : list MatchEntry :=
  map (fun m =>
         {| start := index m; end_ := index m + matchLength m;
            node := ImageRenderer ("img-" ++ natToString (index m))%string
                      (group1 m) |}) ms.

(** [allMatches.sort((a, b) => a.start - b.start)]: a stable sort. *)
Fixpoint insertByStart (x : MatchEntry) (l : list MatchEntry)
  : list MatchEntry :=
  match l with
  | [] => [x]
  | y :: l' =>
      if start x <=? start y then x :: y :: l' else y :: insertByStart x l'
  end.

Definition sortByStart (l : list MatchEntry) : list MatchEntry :=
  fold_right insertByStart [] l.

(** [text.substring(a, b)] for [a <= b]. *)
Definition substring (a b : nat) (text : string) : string :=
  String.substring a (b - a) text.

(** The loop that interleaves text segments and nodes. *)
Fixpoint buildParts (text : string) (ms : list MatchEntry)
         (lastIndex : nat) (parts : list ReactNode)
  : list ReactNode * nat :=
  match ms with
  | [] => (parts, lastIndex)
  | m :: ms' =>
      let parts1 :=
        if lastIndex <? start m
        then parts ++ [TextNode (substring lastIndex (start m) text)]
        else parts in
      buildParts text ms' (end_ m) (parts1 ++ [node m])
  end.

Definition parseMessageContent (text : string) : list ReactNode :=
  match text with
  | EmptyString => [TextNode text]
  | _ =>
      let '(timestamp, allMatches0) :=
        timestampLoop (execAll timestampPattern text 0 0) in
      let allMatches1 :=
        allMatches0 ++ videoEntries timestamp (execAll videoPattern text 0 0) in
      let allMatches2 :=
        allMatches1 ++ imageEntries (execAll imagePattern text 0 0) in
      let '(parts, lastIndex) :=
        buildParts text (sortByStart allMatches2) 0 [] in
      let parts' :=
        if lastIndex <? String.length text
        then parts ++ [TextNode (substring lastIndex (String.length text) text)]
        else parts in
      match parts' with
      | [] => [TextNode text]
      | _ => parts'
      end
  end.

(** The number carried by the last timestamp tag of the text. *)
Definition lastTimestamp (text : string) : option number :=
  option_map parseFloat
    (lastOpt (map group1 (execAll timestampPattern text 0 0))).

(** The nodes of [allMatches] after the three loops. *)
Definition matchNodes (text : string) : list ReactNode :=
  map node
    (snd (timestampLoop (execAll timestampPattern text 0 0))
     ++ videoEntries (lastTimestamp text) (execAll videoPattern text 0 0)
     ++ imageEntries (execAll imagePattern text 0 0)).

End Parse.

Arguments TextNode {number}.
Arguments Fragment {number}.
Arguments VideoRenderer {number}.
Arguments ImageRenderer {number}.
Arguments start {number}.
Arguments end_ {number}.
Arguments node {number}.
Arguments insertByStart {number}.
Arguments sortByStart {number}.
Arguments buildParts {number}.

End Message.


(* ===================================================================== *)
(** * Chunking environment of the embeddings container (pipeline.ts) *)
(* ===================================================================== *)

Module Chunking.

(** [corpusConfig?.corpusProperties?.chunkingConfiguration]: every level
    may be undefined.  The chunking values are JS numbers; they are
    integers here. *)
Record ChunkingConfiguration := {
  chunkSize : option Z;
  chunkOverlap : option Z;
}.

Record CorpusProperties := {
  chunkingConfiguration : option ChunkingConfiguration;
}.

Record DefaultCorpusConfig := {
  corpusProperties : option CorpusProperties;
}.

(** [n.toString()] for an integer number of magnitude below 2^53, which
    a double holds exactly and [toString] prints digit by digit (from
    10^21 on the code prints an exponent); the theorems over every
    number carry the bound. *)
Definition numberToString (n : Z) : string :=
  NilZero.string_of_int (Z.to_int n).

(** [(x || d).toString()] for [x : number | undefined] and a string [d]:
    [||] takes its right operand when the left one is falsy, and the falsy
    numbers are the zeros (and NaN, which no configuration file holds). *)
Definition orDefault (x : option Z) (d : string) : string :=
  match x with
  | Some n => if (n =? 0)%Z then d else numberToString n
  | None => d
  end.

(** The optional chains down to the two values. *)
Definition configuredChunkSize (corpusConfig : option DefaultCorpusConfig)
  : option Z :=
  c ← corpusConfig; p ← corpusProperties c;
  k ← chunkingConfiguration p; chunkSize k.

Definition configuredChunkOverlap (corpusConfig : option DefaultCorpusConfig)
  : option Z :=
  c ← corpusConfig; p ← corpusProperties c;
  k ← chunkingConfiguration p; chunkOverlap k.

(** The two chunking variables of the container environment. *)
Record ContainerEnvironment := {
  CHUNK_SIZE_DOC_SPLIT : string;
  OVERLAP_FOR_DOC_SPLIT : string;
}.

Section Constants.

(** [constants.CHUNK_SIZE_DOC_SPLIT] and [constants.OVERLAP_FOR_DOC_SPLIT]
    of [lib/infra/common/constants.ts]: strings, since the vector store
    management function takes them as environment values unchanged. *)
Variable constants_CHUNK_SIZE_DOC_SPLIT : string.
Variable constants_OVERLAP_FOR_DOC_SPLIT : string.

(** The [environment] of the container [embeddings], chunking part. *)
Definition containerEnvironment (corpusConfig : option DefaultCorpusConfig)
  : ContainerEnvironment :=
  {| CHUNK_SIZE_DOC_SPLIT :=
       orDefault (configuredChunkSize corpusConfig)
                 constants_CHUNK_SIZE_DOC_SPLIT;
     OVERLAP_FOR_DOC_SPLIT :=
       orDefault (configuredChunkOverlap corpusConfig)
                 constants_OVERLAP_FOR_DOC_SPLIT |}.

End Constants.

(** A corpus configuration with the two chunking values given. *)
Definition withChunking (size overlap : Z) : option DefaultCorpusConfig :=
  Some {| corpusProperties :=
            Some {| chunkingConfiguration :=
                      Some {| chunkSize := Some size;
                              chunkOverlap := Some overlap |} |} |}.

End Chunking.

(* ===================================================================== *)
(** * The stack (francis-stack.ts) *)
(* ===================================================================== *)

Module Stack.

(** [systemConfig.ragConfig.corpusConfig], as far as the stack reads it. *)
Record CorpusConfig := { corpusType : string }.
Record SystemConfig := { corpusConfig : option CorpusConfig }.

(** [corpusConfig?.corpusType] *)
Definition corpusTypeOf (systemConfig : SystemConfig) : option string :=
  corpusType <$> corpusConfig systemConfig.

(** [corpusConfig?.corpusType == 'knowledgebase'] *)
Definition isKnowledgeBase (systemConfig : SystemConfig) : bool :=
  match corpusTypeOf systemConfig with
  | Some t => String.eqb t "knowledgebase"
  | None => false
  end.

(** A construct is named by its path of ids below the stack. *)
Definition ConstructPath := list string.

Definition construct (id : string) (children : list ConstructPath)
  : list ConstructPath :=
  [id] :: map (cons id) children.

(** The constructs [new IngestionPipeline(scope, id, ...)] creates
    (pipeline.ts), in the order of the constructor. *)
Definition IngestionPipeline (id : string) : list ConstructPath :=
  construct id
    [ ["CacheTable"]; ["cacheUpdateFunction"]; ["processedAssetsBucket"];
      ["inputValidationFunction"]; ["EmbeddingsCluster"];
      ["EmbeddingsLogGroup"]; ["EmbeddingsTaskExecutionRole"];
      ["EmbeddingsTaskRole"]; ["EmbeddingsTaskDefinition"];
      ["vectorStoreManagementFunction"];
      ["Detect and identify documents for ingestion"];
      ["Generate embeddings from processed documents and store them"];
      ["Vector store management task"];
      ["Are there any documents that need to be ingested?"];
      ["DistributedMap"]; ["Succeed"]; ["IngestionStateMachineLogGroup"];
      ["IngestionStateMachine"]; ["StateMachineArn"];
      ["EmbeddingsClusterArn"] ].

(** The constructs of [FrancisChatbotStack], in the order of its
    constructor.  The constructs defined outside [src/] are leaves. *)
Definition FrancisChatbotStack (systemConfig : SystemConfig)
  : list ConstructPath :=
  [ ["adminUserEmail"]; ["ServerAccessLogsBucket"]; ["InputAssetsBucket"];
    ["MediaBucket"]; ["BaseInfra"]; ["Frontend"]; ["ConversationStore"];
    ["Authentication"] ]
  ++ (if isKnowledgeBase systemConfig
      then [ ["BedrockExecutionRole"]; ["OpenSearchVectorStore"];
             ["KnolwedgeBase"] ]
      else ["PgVectorStore"] :: IngestionPipeline "IngestionPipeline")
  ++ [ ["Api"]; ["FrontendDeployment"]; ["CloudFrontDomain"]; ["UserPoolId"];
       ["InputBucket"]; ["WebSocketApiUrl"] ].

(** The construct [path] or one below it exists in the stack. *)
Definition hasConstruct (root : string) (stack : list ConstructPath) : bool :=
  existsb (fun p => match p with
                    | id :: _ => String.eqb id root
                    | [] => false
                    end) stack.

Definition isConstructed (path : ConstructPath) (stack : list ConstructPath)
  : bool :=
  existsb (fun p => bool_decide (p = path)) stack.

End Stack.

(* ===================================================================== *)
(** * The cache table and its secondary index (pipeline.ts) *)
(* ===================================================================== *)

Module CacheIndex.

Inductive AttributeType := STRING | NUMBER | BINARY.

Record Attribute := { name : string; type : AttributeType }.

Record KeySchema := { partitionKey : Attribute; sortKey : Attribute }.

Record GlobalSecondaryIndex := { indexName : string; indexKeys : KeySchema }.

(** [new ddb.Table(this, 'CacheTable', ...)] *)
Definition cacheTable : KeySchema :=
  {| partitionKey := {| name := "PK"; type := STRING |};
     sortKey := {| name := "SK"; type := STRING |} |}.

(** [cacheTable.addGlobalSecondaryIndex(...)] *)
Definition GSI1 : GlobalSecondaryIndex :=
  {| indexName := "GSI1";
     indexKeys :=
       {| partitionKey := {| name := "UpdatedStatus"; type := STRING |};
          sortKey := {| name := "FileURI"; type := STRING |} |} |}.

(** An item of the table: its string attributes by name. *)
Abbreviation Item := (gmap string string).

(** ** The order of string keys

    DynamoDB orders string sort keys by their bytes; this is the order of
    [String_as_OT.compare]. *)
Definition strLeb (a b : string) : bool :=
  match OrdersEx.String_as_OT.compare a b with
  | Gt => false
  | _ => true
  end.

(** An entry of an index: the values of the two key attributes and the
    item. *)
Record IndexEntry := { partition : string; sort : string; item : Item }.

(** The order of the index: by partition key, then by sort key. *)
Definition entryLeb (a b : IndexEntry) : bool :=
  match OrdersEx.String_as_OT.compare (partition a) (partition b) with
  | Lt => true
  | Eq => strLeb (sort a) (sort b)
  | Gt => false
  end.

Definition entryLe (a b : IndexEntry) : Prop := Is_true (entryLeb a b).

#[global] Instance entryLe_dec : RelDecision entryLe.
Proof. intros a b. unfold entryLe. apply _. Defined.

(** An item is in an index when it has both key attributes of the index
    (a secondary index is sparse). *)
Definition project (idx : GlobalSecondaryIndex) (it : Item)
  : option IndexEntry :=
  pk ← it !! name (partitionKey (indexKeys idx));
  sk ← it !! name (sortKey (indexKeys idx));
  Some {| partition := pk; sort := sk; item := it |}.

(** The entries of an index over the items of the table, in the order of
    the index. *)
Definition indexEntries (idx : GlobalSecondaryIndex) (table : list Item)
  : list IndexEntry :=
  merge_sort entryLe (omap (project idx) table).

(** A query on the index with the key condition [partition key = v]: the
    entries of that partition, in ascending order of the sort key. *)
Definition queryEntries (idx : GlobalSecondaryIndex) (v : string)
           (table : list Item) : list IndexEntry :=
  filter (fun e => partition e = v) (indexEntries idx table).

Definition query (idx : GlobalSecondaryIndex) (v : string)
           (table : list Item) : list Item :=
  item <$> queryEntries idx v table.

(** "All entries with this status", read off the table itself. *)
Definition hasStatus (status : string) (it : Item) : Prop :=
  it !! "UpdatedStatus" = Some status /\ is_Some (it !! "FileURI").

#[global] Instance hasStatus_dec status it : Decision (hasStatus status it).
Proof. unfold hasStatus. apply _. Defined.

(** The id of an entry of the cache, as the index sees it. *)
Definition fileURI (it : Item) : string := default "" (it !! "FileURI").

(** A small cache table. *)
Definition cacheItem (pk status uri : string) : Item :=
  <["PK" := pk]> (<["SK" := pk]>
    (<["UpdatedStatus" := status]> (<["FileURI" := uri]> ∅))).

Definition sampleTable : list Item :=
  [ cacheItem "3" "PENDING" "s3://in/c.pdf";
    cacheItem "1" "COMPLETE" "s3://in/z.pdf";
    cacheItem "2" "PENDING" "s3://in/a.pdf";
    <["PK" := "4"]> (<["SK" := "4"]> ∅) ].

End CacheIndex.

(* ===================================================================== *)
(** * The ingestion state machine (pipeline.ts) *)
(* ===================================================================== *)

Module Pipeline.

(** ** Data of a batch *)

Inductive Action := Upsert | Delete.

(** Modelled from the spec: the Manifest Item of section 3.  The manifest
    is written by the input validation function, whose code
    ([ingestion/input_validation]) is not under [src/]. *)
Record ManifestItem := {
  uri : string;
  action : Action;
  fingerprintAtSelection : string;
}.

(** The payload the input validation function returns, as far as the
    state machine reads it ([$.Payload.isValid]). *)
Record Payload := { isValid : bool }.

(** Modelled from the spec: the Per-Item Result of section 3, as far as
    a task that ended well gives one: the uri of the item and the units
    it produced.  The two names are those of the migration notes; the
    writer of the records ([ingestion/embeddings/entrypoint.py]) is not
    under [src/], and nothing is said here of the format of what is
    written. *)
Record ResultRecord := { FileURI : string; EmbeddingsGenerated : nat }.

(** ** The definition of the state machine *)

Inductive LambdaFunction :=
| inputValidationFunction
| vectorStoreManagementFunction.

(** What a Lambda task does with the payload of its function:
    [resultSelector: {'Payload.$': '$.Payload'}] makes it the output of the
    state, [resultPath: JsonPath.DISCARD] keeps the input of the state. *)
Inductive ResultHandling := SelectPayload | DISCARD.

Inductive Condition := booleanEquals (variable : string) (value : bool).

Record DistributedMapProps := {
  maxConcurrency : nat;
  (** the key of [itemReader], from [$$.Execution.Name] *)
  itemReaderKey : string -> string;
  (** the prefix of [resultWriter], from [$$.Execution.Name] *)
  resultWriterPrefix : string -> string;
  (** the id of the task of [itemProcessor] *)
  itemProcessor : string;
}.

Inductive State :=
| LambdaInvoke (id : string) (lambdaFunction : LambdaFunction)
               (result : ResultHandling) (next : State)
| Choice (id : string) (when_ : Condition) (then_ otherwise : State)
| DistributedMap (id : string) (props : DistributedMapProps) (next : State)
| Succeed (id : string).

Definition embeddingsTask : string :=
  "Generate embeddings from processed documents and store them".

Definition succeedTask : State := Succeed "Succeed".

Definition runFilesInParallelProps : DistributedMapProps :=
  {| maxConcurrency := 1;
     itemReaderKey := fun executionName =>
       ("ingestion_input/" ++ executionName ++ "/config.json")%string;
     resultWriterPrefix := fun executionName =>
       ("ingestion_output/" ++ executionName ++ "/sf-results")%string;
     itemProcessor := embeddingsTask |}.

Definition runFilesInParallel (next : State) : State :=
  DistributedMap "DistributedMap" runFilesInParallelProps next.

Definition ingestionChoice : State :=
  Choice "Are there any documents that need to be ingested?"
         (booleanEquals "$.Payload.isValid" false)
         succeedTask
         (runFilesInParallel succeedTask).

Definition vectorStoreManagementTask : State :=
  LambdaInvoke "Vector store management task"
               vectorStoreManagementFunction DISCARD ingestionChoice.

Definition inputValidationTask : State :=
  LambdaInvoke "Detect and identify documents for ingestion"
               inputValidationFunction SelectPayload vectorStoreManagementTask.

(** [inputValidationTask.next(vectorStoreManagementTask.next(
       ingestionChoice.when(..., succeedTask)
                      .otherwise(runFilesInParallel.next(succeedTask))))] *)
Definition definition : State := inputValidationTask.

(** The configured ceiling of the fan-out. *)
Definition concurrencyCeiling : nat := maxConcurrency runFilesInParallelProps.

(** Where the results of an execution are written. *)
Definition resultLocation (executionName : string) : string :=
  resultWriterPrefix runFilesInParallelProps executionName.

(** ** Execution *)

(** What the state machine calls and reads.  An answer stands for the
    outcome of a call after the retries of the service, if any: the
    definition adds no retry and no catch of its own, so a call that
    fails ends the execution. *)
Record World := {
  executionName : string;
  (** a Lambda function returns a payload or fails *)
  invoke : LambdaFunction -> option Payload;
  (** the JSON array under a key of the processed assets bucket *)
  readItems : string -> option (list ManifestItem);
  (** the ECS task of an item: the number of embeddings it generated, or
      a failure *)
  runTask : ManifestItem -> option nat;
}.

Inductive Event :=
| TaskSucceeded (fn : LambdaFunction)
| TaskFailed (fn : LambdaFunction)
| ChoiceFailed
| ItemReaderFailed
| Dispatched (i : ManifestItem)
| Completed (i : ManifestItem)
| WorkerFailed (i : ManifestItem)
| ExecutionSucceeded.

(** The data of the execution at a state: the [Payload] object, once the
    validation has returned it. *)
Definition evalCondition (c : Condition) (data : option Payload)
  : option bool :=
  match c with
  | booleanEquals variable value =>
      if String.eqb variable "$.Payload.isValid"
      then (fun p => Bool.eqb (isValid p) value) <$> data
      else None
  end.

(** *** The worker pool of the distributed map *)

Record Pool := {
  pending : list ManifestItem;
  inFlight : list ManifestItem;
  written : list ResultRecord;
}.

Definition resultOf (i : ManifestItem) (n : nat) : ResultRecord :=
  {| FileURI := uri i; EmbeddingsGenerated := n |}.

(** Modelled from the spec: the bounded worker pool of sections 4.5 and 5
    (the runtime of the distributed map and the entry point of the
    container, [ingestion/embeddings/entrypoint.py], are not under
    [src/]).  One task is dispatched per item, the pending items being
    taken in any order ("no ordering guarantee between them is required
    or provided"), while fewer tasks than the ceiling are in flight (a
    ceiling of 0 sets no limit); the tasks in flight complete in any
    order; a task that ends well writes the result of its item.

    From the code, and not from the spec: no failure is tolerated.  The
    distributed map of [pipeline.ts] sets no tolerated failure, no retry
    and no catch, so a failed task ends the run, which [None] stands
    for; sections 4.4 and 7 of the spec would record the failure and go
    on. *)
Inductive pool_step (ceiling : nat) (run : ManifestItem -> option nat)
  : Pool -> Event -> option Pool -> Prop :=
| pool_dispatch i pend1 pend2 infl res :
    ceiling = 0 \/ length infl < ceiling ->
    pool_step ceiling run
      {| pending := pend1 ++ i :: pend2; inFlight := infl; written := res |}
      (Dispatched i)
      (Some {| pending := pend1 ++ pend2; inFlight := infl ++ [i];
               written := res |})
| pool_complete i n pend infl1 infl2 res :
    run i = Some n ->
    pool_step ceiling run
      {| pending := pend; inFlight := infl1 ++ i :: infl2; written := res |}
      (Completed i)
      (Some {| pending := pend; inFlight := infl1 ++ infl2;
               written := res ++ [resultOf i n] |})
| pool_fail i pend infl1 infl2 res :
    run i = None ->
    pool_step ceiling run
      {| pending := pend; inFlight := infl1 ++ i :: infl2; written := res |}
      (WorkerFailed i)
      None.

(** *** The states of the machine *)

Inductive Control :=
| Enter (s : State)
| MapRun (props : DistributedMapProps) (next : State)
         (pend infl : list ManifestItem)
| Succeeded
| Failed.

Record Config := {
  control : Control;
  data : option Payload;
  results : list ResultRecord;
  log : list Event;
}.

Definition initial (machine : State) : Config :=
  {| control := Enter machine; data := None; results := []; log := [] |}.

Inductive step (w : World) : Config -> Config -> Prop :=
| step_invoke id fn result next d res l p :
    invoke w fn = Some p ->
    step w
      {| control := Enter (LambdaInvoke id fn result next);
         data := d; results := res; log := l |}
      {| control := Enter next;
         data := match result with SelectPayload => Some p | DISCARD => d end;
         results := res; log := l ++ [TaskSucceeded fn] |}
| step_invoke_failed id fn result next d res l :
    invoke w fn = None ->
    step w
      {| control := Enter (LambdaInvoke id fn result next);
         data := d; results := res; log := l |}
      {| control := Failed; data := d; results := res;
         log := l ++ [TaskFailed fn] |}
| step_choice id c s1 s2 d res l b :
    evalCondition c d = Some b ->
    step w
      {| control := Enter (Choice id c s1 s2);
         data := d; results := res; log := l |}
      {| control := Enter (if b then s1 else s2);
         data := d; results := res; log := l |}
| step_choice_failed id c s1 s2 d res l :
    evalCondition c d = None ->
    step w
      {| control := Enter (Choice id c s1 s2);
         data := d; results := res; log := l |}
      {| control := Failed; data := d; results := res;
         log := l ++ [ChoiceFailed] |}
| step_map_read id props next d res l items :
    readItems w (itemReaderKey props (executionName w)) = Some items ->
    step w
      {| control := Enter (DistributedMap id props next);
         data := d; results := res; log := l |}
      {| control := MapRun props next items [];
         data := d; results := res; log := l |}
| step_map_read_failed id props next d res l :
    readItems w (itemReaderKey props (executionName w)) = None ->
    step w
      {| control := Enter (DistributedMap id props next);
         data := d; results := res; log := l |}
      {| control := Failed; data := d; results := res;
         log := l ++ [ItemReaderFailed] |}
| step_map_pool props next pend infl d res l ev pend' infl' res' :
    pool_step (maxConcurrency props) (runTask w)
      {| pending := pend; inFlight := infl; written := res |} ev
      (Some {| pending := pend'; inFlight := infl'; written := res' |}) ->
    step w
      {| control := MapRun props next pend infl;
         data := d; results := res; log := l |}
      {| control := MapRun props next pend' infl';
         data := d; results := res'; log := l ++ [ev] |}
| step_map_failed props next pend infl d res l ev :
    pool_step (maxConcurrency props) (runTask w)
      {| pending := pend; inFlight := infl; written := res |} ev None ->
    step w
      {| control := MapRun props next pend infl;
         data := d; results := res; log := l |}
      {| control := Failed; data := d; results := res; log := l ++ [ev] |}
| step_map_done props next d res l :
    step w
      {| control := MapRun props next [] [];
         data := d; results := res; log := l |}
      {| control := Enter next; data := d; results := res; log := l |}
| step_succeed id d res l :
    step w
      {| control := Enter (Succeed id);
         data := d; results := res; log := l |}
      {| control := Succeeded; data := d; results := res;
         log := l ++ [ExecutionSucceeded] |}.

(** The configurations an execution of the state machine goes through. *)
Definition reachable (w : World) (c : Config) : Prop :=
  rtc (step w) (initial definition) c.

(** The number of worker tasks in flight. *)
Definition inFlightCount (c : Config) : nat :=
  match control c with
  | MapRun _ _ _ infl => length infl
  | _ => 0
  end.

(** ** The stages of a batch *)

Inductive Stage := Validating | Bookkeeping | FanningOut | Finalized | Aborted.

(** Modelled from the spec: the stage names of section 3, read on the
    states of the definition.  The choice is the exit of the bookkeeping
    stage. *)
Definition stageOf (c : Control) : Stage :=
  match c with
  | Enter (LambdaInvoke _ inputValidationFunction _ _) => Validating
  | Enter (LambdaInvoke _ vectorStoreManagementFunction _ _) => Bookkeeping
  | Enter (Choice _ _ _ _) => Bookkeeping
  | Enter (DistributedMap _ _ _) => FanningOut
  | MapRun _ _ _ _ => FanningOut
  | Enter (Succeed _) => Finalized
  | Succeeded => Finalized
  | Failed => Aborted
  end.

Definition isDispatch (e : Event) : bool :=
  match e with Dispatched _ => true | _ => false end.

(** No worker task was dispatched. *)
Definition noDispatch (l : list Event) : Prop :=
  forall i, ~ In (Dispatched i) l.

(** The events of the worker pool. *)
Definition isPoolEvent (e : Event) : Prop :=
  match e with
  | Dispatched _ | Completed _ => True
  | _ => False
  end.

(** ** Sample worlds *)

Definition item (u : string) : ManifestItem :=
  {| uri := u; action := Upsert; fingerprintAtSelection := "" |}.

Definition manifestKey (w : World) : string :=
  itemReaderKey runFilesInParallelProps (executionName w).

(** A batch named [run-1] whose validation answers [valid] and whose
    manifest is [items]; every task generates 3 embeddings. *)
Definition world (valid : bool) (items : list ManifestItem) : World :=
  {| executionName := "run-1";
     invoke := fun _ => Some {| isValid := valid |};
     readItems := fun key =>
       if String.eqb key "ingestion_input/run-1/config.json"
       then Some items else None;
     runTask := fun _ => Some 3 |}.

(** The results and the events of the run that takes the items one after
    the other. *)
Definition sequentialResults (w : World) (items : list ManifestItem)
  : list ResultRecord :=
  omap (fun i => resultOf i <$> runTask w i) items.

Definition sequentialEvents (items : list ManifestItem) : list Event :=
  flat_map (fun i => [Dispatched i; Completed i]) items.

(** ** The shape of the configurations of an execution *)

Definition dispatchedItems (evs : list Event) : list ManifestItem :=
  omap (fun e => match e with Dispatched i => Some i | _ => None end) evs.

(** The items whose tasks have ended well, in the order of their
    ends. *)
Definition completedItems (evs : list Event) : list ManifestItem :=
  omap (fun e => match e with Completed i => Some i | _ => None end) evs.

Definition validated : list Event :=
  [TaskSucceeded inputValidationFunction].

Definition prepared : list Event :=
  [TaskSucceeded inputValidationFunction;
   TaskSucceeded vectorStoreManagementFunction].

(** The pool during the run over the manifest [items]: the items taken
    from the manifest are those whose dispatch is in the log, each of
    them is in flight or has its task ended and its result written, and
    the log has one event per dispatch and one per completion. *)
Inductive PoolInv (w : World) (items pend infl : list ManifestItem)
          (res : list ResultRecord) (evs : list Event) : Prop :=
| pool_inv taken done :
    Permutation items (taken ++ pend) ->
    Permutation taken (done ++ infl) ->
    Forall2 (fun i r => exists n, runTask w i = Some n /\ r = resultOf i n)
            done res ->
    length infl <= concurrencyCeiling ->
    Forall isPoolEvent evs ->
    dispatchedItems evs = taken ->
    completedItems evs = done ->
    length evs = length taken + length done ->
    PoolInv w items pend infl res evs.

(** The configurations of an execution of [definition], state by state. *)
Inductive Inv (w : World) : Config -> Prop :=
| inv_start :
    Inv w (initial definition)
| inv_validation_failed :
    invoke w inputValidationFunction = None ->
    Inv w {| control := Failed; data := None; results := [];
             log := [TaskFailed inputValidationFunction] |}
| inv_bookkeeping p :
    invoke w inputValidationFunction = Some p ->
    Inv w {| control := Enter vectorStoreManagementTask; data := Some p;
             results := []; log := validated |}
| inv_bookkeeping_failed p :
    invoke w inputValidationFunction = Some p ->
    invoke w vectorStoreManagementFunction = None ->
    Inv w {| control := Failed; data := Some p; results := [];
             log := validated ++ [TaskFailed vectorStoreManagementFunction] |}
| inv_choice p q :
    invoke w inputValidationFunction = Some p ->
    invoke w vectorStoreManagementFunction = Some q ->
    Inv w {| control := Enter ingestionChoice; data := Some p;
             results := []; log := prepared |}
| inv_skip p q :
    invoke w inputValidationFunction = Some p ->
    invoke w vectorStoreManagementFunction = Some q ->
    isValid p = false ->
    Inv w {| control := Enter succeedTask; data := Some p;
             results := []; log := prepared |}
| inv_skipped p q :
    invoke w inputValidationFunction = Some p ->
    invoke w vectorStoreManagementFunction = Some q ->
    isValid p = false ->
    Inv w {| control := Succeeded; data := Some p;
             results := []; log := prepared ++ [ExecutionSucceeded] |}
| inv_map p q :
    invoke w inputValidationFunction = Some p ->
    invoke w vectorStoreManagementFunction = Some q ->
    isValid p = true ->
    Inv w {| control := Enter (runFilesInParallel succeedTask);
             data := Some p; results := []; log := prepared |}
| inv_map_read_failed p q :
    invoke w inputValidationFunction = Some p ->
    invoke w vectorStoreManagementFunction = Some q ->
    isValid p = true ->
    readItems w (manifestKey w) = None ->
    Inv w {| control := Failed; data := Some p; results := [];
             log := prepared ++ [ItemReaderFailed] |}
| inv_map_run p q items pend infl res evs :
    invoke w inputValidationFunction = Some p ->
    invoke w vectorStoreManagementFunction = Some q ->
    isValid p = true ->
    readItems w (manifestKey w) = Some items ->
    PoolInv w items pend infl res evs ->
    Inv w {| control := MapRun runFilesInParallelProps succeedTask pend infl;
             data := Some p; results := res; log := prepared ++ evs |}
| inv_map_failed p q items pend infl res evs i :
    invoke w inputValidationFunction = Some p ->
    invoke w vectorStoreManagementFunction = Some q ->
    isValid p = true ->
    readItems w (manifestKey w) = Some items ->
    PoolInv w items pend infl res evs ->
    In i infl ->
    runTask w i = None ->
    Inv w {| control := Failed; data := Some p; results := res;
             log := prepared ++ evs ++ [WorkerFailed i] |}
| inv_map_done p q items res evs :
    invoke w inputValidationFunction = Some p ->
    invoke w vectorStoreManagementFunction = Some q ->
    isValid p = true ->
    readItems w (manifestKey w) = Some items ->
    PoolInv w items [] [] res evs ->
    Inv w {| control := Enter succeedTask; data := Some p;
             results := res; log := prepared ++ evs |}
| inv_done p q items res evs :
    invoke w inputValidationFunction = Some p ->
    invoke w vectorStoreManagementFunction = Some q ->
    isValid p = true ->
    readItems w (manifestKey w) = Some items ->
    PoolInv w items [] [] res evs ->
    Inv w {| control := Succeeded; data := Some p; results := res;
             log := prepared ++ evs ++ [ExecutionSucceeded] |}.

(** A batch whose bookkeeping fails. *)
Definition worldBookkeepingFails : World :=
  {| executionName := "run-2";
     invoke := fun fn =>
       match fn with
       | inputValidationFunction => Some {| isValid := true |}
       | vectorStoreManagementFunction => None
       end;
     readItems := fun _ => Some [item "s3://in/a.pdf"];
     runTask := fun _ => Some 3 |}.

End Pipeline.

(* ===================================================================== *)
(** * The runs of the ingestion state machine *)
(* ===================================================================== *)

Module PipelineRuns.
Import Pipeline.

(** ** How long an execution can be *)

(** The items a distributed map reads, none when the reading fails. *)
Definition itemsOf (w : World) (props : DistributedMapProps)
  : list ManifestItem :=
  match readItems w (itemReaderKey props (executionName w)) with
  | Some items => items
  | None => []
  end.

(** The steps an execution can take from the entry of a state: one for a
    task, a choice or the success state; for a map one to read the items,
    two for each item (its dispatch and its completion) and one to leave
    the map. *)
Fixpoint stepsOf (w : World) (s : State) : nat :=
  match s with
  | LambdaInvoke _ _ _ next => 1 + stepsOf w next
  | Choice _ _ s1 s2 => 1 + Nat.max (stepsOf w s1) (stepsOf w s2)
  | DistributedMap _ props next =>
      2 + 2 * length (itemsOf w props) + stepsOf w next
  | Succeed _ => 1
  end.

Definition stepsLeft (w : World) (c : Control) : nat :=
  match c with
  | Enter s => stepsOf w s
  | MapRun _ next pend infl => 1 + 2 * length pend + length infl + stepsOf w next
  | Succeeded => 0
  | Failed => 0
  end.

End PipelineRuns.

(* ===================================================================== *)
(** * Change detection: bucket notifications and the change cache *)
(* ===================================================================== *)

Module ChangeDetection.
Import Pipeline.

(** ** The notifications of the input assets bucket (pipeline.ts) *)

(** [s3.EventType]: the two values the pipeline uses. *)
Inductive EventType := OBJECT_CREATED | OBJECT_REMOVED.

Definition eventTypeValue (t : EventType) : string :=
  match t with
  | OBJECT_CREATED => "s3:ObjectCreated:*"
  | OBJECT_REMOVED => "s3:ObjectRemoved:*"
  end.

Inductive Destination := cacheUpdateFunction.

(** An event of the bucket: its name, [s3:ObjectRemoved:Delete] for
    instance, the key of the object and its entity tag. *)
Record S3Event := { eventName : string; objectKey : string; eTag : string }.

(** A subscription ending in [*] takes every event name that starts with
    what stands before the [*]. *)
Fixpoint matchesEventName (pattern name : string) : bool :=
  match pattern with
  | "*" => true
  | EmptyString => match name with EmptyString => true | _ => false end
  | String c pattern' =>
      match name with
      | String d name' => Ascii.eqb c d && matchesEventName pattern' name'
      | EmptyString => false
      end
  end.

(** [props.inputAssetsBucket.addEventNotification(...)], twice. *)
Definition inputAssetsBucketNotifications : list (EventType * Destination) :=
  [ (OBJECT_CREATED, cacheUpdateFunction);
    (OBJECT_REMOVED, cacheUpdateFunction) ].

(** The functions an event of the bucket invokes. *)
Definition invoked (ev : S3Event) : list Destination :=
  map snd
    (List.filter (fun n => matchesEventName (eventTypeValue (fst n))
                                            (eventName ev))
                 inputAssetsBucketNotifications).



(** ** The change cache *)

Inductive Status := Pending | Processing | Complete | Failed | Deleted.

#[global] Instance Status_eq_dec : EqDecision Status.
Proof. solve_decision. Defined.

(** Modelled from the spec: the Cache Entry of section 3; its id is the
    key of the entry in the cache.  The code that reads and writes the
    cache ([ingestion/cache_update], [ingestion/input_validation],
    [ingestion/embeddings]) is not under [src/]. *)
Record CacheEntry := {
  fingerprint : string;
  status : Status;
  updatedAt : nat;
}.

Abbreviation Cache := (gmap string CacheEntry).

Definition withStatus (s : Status) (now : nat) (e : CacheEntry) : CacheEntry :=
  {| fingerprint := fingerprint e; status := s; updatedAt := now |}.

(** Modelled from the spec: [Get] of section 4.1. *)
Definition Get (id : string) (cache : Cache) : option CacheEntry :=
  cache !! id.

(** Modelled from the spec: [Upsert] of section 4.1, "sets status Pending
    if fingerprint differs from stored, or creates new entry; no-op if
    fingerprint matches and status is Complete".  The spec is silent on a
    matching fingerprint with another status; the entry is left as it
    is. *)
Definition Upsert (now : nat) (id fp : string) (cache : Cache) : Cache :=
  match cache !! id with
  | None =>
      <[id := {| fingerprint := fp; status := Pending; updatedAt := now |}]>
        cache
  | Some e =>
      if String.eqb (fingerprint e) fp then cache
      else <[id := {| fingerprint := fp; status := Pending;
                      updatedAt := now |}]> cache
  end.

(** Modelled from the spec: [MarkDeleted] of section 4.1. *)
Definition MarkDeleted (now : nat) (id : string) (cache : Cache) : Cache :=
  alter (withStatus Deleted now) id cache.

(** The order of the entries by id. *)
Definition byId (a b : string * CacheEntry) : Prop := String.le a.1 b.1.

#[global] Instance byId_dec : RelDecision byId.
Proof. intros a b. unfold byId. apply _. Defined.

(** Modelled from the spec: [ScanByStatus] of section 4.1, "ordered by
    id". *)
Definition ScanByStatus (s : Status) (cache : Cache)
  : list (string * CacheEntry) :=
  merge_sort byId (filter (fun kv => status kv.2 = s) (map_to_list cache)).

(** ** The validation stage *)

Definition upsertItem (kv : string * CacheEntry) : ManifestItem :=
  {| uri := kv.1; action := Pipeline.Upsert;
     fingerprintAtSelection := fingerprint kv.2 |}.

Definition deleteItem (kv : string * CacheEntry) : ManifestItem :=
  {| uri := kv.1; action := Pipeline.Delete;
     fingerprintAtSelection := fingerprint kv.2 |}.

Definition listed (listing : list (string * string)) (id : string) : Prop :=
  In id (map fst listing).

#[global] Instance listed_dec listing id : Decision (listed listing id).
Proof. unfold listed. apply (In_dec string_dec). Defined.

(** The ids of the cache that the listing does not have. *)
Definition unlisted (listing : list (string * string)) (cache : Cache)
  : list string :=
  filter (fun id => ~ listed listing id) (map fst (map_to_list cache)).

(** Modelled from the spec: the algorithm of section 4.2, "for each listed
    object, call Upsert; for each cache entry with no corresponding listed
    object, call MarkDeleted; then ScanByStatus(Pending) and
    ScanByStatus(Deleted-pending-removal) to build the Manifest". *)
Definition reconcile (now : nat) (listing : list (string * string))
           (cache : Cache) : Cache :=
  let cache1 :=
    fold_left (fun c obj => Upsert now obj.1 obj.2 c) listing cache in
  fold_left (fun c id => MarkDeleted now id c) (unlisted listing cache1) cache1.

(** Modelled from the spec: the manifest of section 4.2, the pending
    entries as Upsert items and the deleted ones as Delete items. *)
Definition manifestOf (cache : Cache) : list ManifestItem :=
  map upsertItem (ScanByStatus Pending cache)
  ++ map deleteItem (ScanByStatus Deleted cache).

Record Validation := {
  cacheAfter : Cache;
  manifest : list ManifestItem;
  valid : bool;
}.

(** Modelled from the spec: the output of the validation stage, section
    4.2; [isValid] stands for a corpus that is not empty (structural
    errors of the listing are not represented). *)
Definition validate (now : nat) (listing : list (string * string))
           (cache : Cache) : Validation :=
  let cache' := reconcile now listing cache in
  {| cacheAfter := cache';
     manifest := manifestOf cache';
     valid := match listing with [] => false | _ => true end |}.

(** ** The fan-out over the manifest *)

(** The vectors of the store, by source uri and position of the chunk. *)
Abbreviation VectorStore := (gmap (string * nat) string).




(** ** The batch of a validation *)




(** ** A sample corpus *)

Definition sampleCache : Cache :=
  <["s3://in/a.pdf" := {| fingerprint := "f1"; status := Complete;
                          updatedAt := 1 |}]>
    (<["s3://in/b.pdf" := {| fingerprint := "f2"; status := Complete;
                             updatedAt := 1 |}]> ∅).








End ChangeDetection.

(* ===================================================================== *)
(** * More of the chat front end *)
(* ===================================================================== *)

From Stdlib Require DecimalNat DecimalFacts.

(** [s.startsWith(p)] *)
Fixpoint startsWith (p s : string) : bool :=
  match p with
  | EmptyString => true
  | String c p' =>
      match s with
      | String d s' => Ascii.eqb c d && startsWith p' s'
      | EmptyString => false
      end
  end.

(** An object, or a [Map], with strings for keys: its entries, in the
    order of their insertion. *)

(** [object[label]], [map.get(label)] *)
Fixpoint property {V} (label : string) (m : list (string * V)) : option V :=
  match m with
  | [] => None
  | (l, v) :: m' => if String.eqb l label then Some v else property label m'
  end.

(** [object[label] = value], [map.set(label, value)]: the entry of a label
    that is there keeps its place, a new one goes to the end. *)
Fixpoint assign {V} (label : string) (value : V) (m : list (string * V))
  : list (string * V) :=
  match m with
  | [] => [(label, value)]
  | (l, v) :: m' =>
      if String.eqb l label then (l, value) :: m'
      else (l, v) :: assign label value m'
  end.

(** ** What [parseMessageContent] returns, seen from the outside
    (Message.tsx) *)

Module MessageView.
Import Message.

(** The [key] of a React node; a text has none. *)
Definition nodeKey {number} (n : ReactNode number) : option string :=
  match n with
  | TextNode _ => None
  | Fragment key => Some key
  | VideoRenderer key _ _ => Some key
  | ImageRenderer key _ => Some key
  end.

(** The [url] of a media node. *)
Definition nodeUrl {number} (n : ReactNode number) : option string :=
  match n with
  | VideoRenderer _ url _ => Some url
  | ImageRenderer _ url => Some url
  | _ => None
  end.

Definition isElement {number} (n : ReactNode number) : bool :=
  match n with
  | TextNode _ => false
  | _ => true
  end.

(** The nodes of a list of parts that are not text. *)
Definition elements {number} (parts : list (ReactNode number))
  : list (ReactNode number) :=
  List.filter isElement parts.

(** [allMatches] after the three loops, before the sort. *)
Definition allMatches (number : Type) (parseFloat : string -> number)
           (text : string) : list (MatchEntry number) :=
  snd (timestampLoop number parseFloat (execAll timestampPattern text 0 0))
  ++ videoEntries number (lastTimestamp number parseFloat text)
                  (execAll videoPattern text 0 0)
  ++ imageEntries number (execAll imagePattern text 0 0).

(** The entry of a timestamp tag in [allMatches]. *)
Definition timestampEntry (number : Type) (m : RegExpMatch)
  : MatchEntry number :=
  {| start := index m; end_ := index m + matchLength m;
     node := Fragment ("timestamp-" ++ natToString (index m))%string |}.

(** The key made for a match. *)
Definition keyOf (prefix : string) (m : RegExpMatch) : string :=
  (prefix ++ natToString (index m))%string.

(** No opening parenthesis in the text. *)
Fixpoint noOpening (s : string) : bool :=
  match s with
  | EmptyString => true
  | String c s' => negb (Ascii.eqb c "(") && noOpening s'
  end.

(** Every character of a string is in a class. *)
Fixpoint allOf (cls : ascii -> bool) (s : string) : bool :=
  match s with
  | EmptyString => true
  | String c s' => cls c && allOf cls s'
  end.

(** ** [formatTime] (Message.tsx) *)

(** The first [n] characters of [pad] repeated; [rest] is what is left of
    the current copy of [pad]. *)
Fixpoint fill (n : nat) (pad rest : string) : string :=
  match n with
  | O => ""
  | S k =>
      match rest with
      | String c r => String c (fill k pad r)
      | EmptyString =>
          match pad with
          | String c r => String c (fill k pad r)
          | EmptyString => ""
          end
      end
  end.

(** [s.padStart(targetLength, padString)] *)
Definition padStart (targetLength : nat) (padString : string) (s : string)
  : string :=
  (fill (targetLength - String.length s) padString padString ++ s)%string.

(** [formatTime(seconds)] for a whole number of seconds below 2^53.  The
    code computes with doubles.  For such a number the quotient by 60 is
    below 2^48, where two doubles are 1/32 apart at most, and it is a
    whole number or lies 1/60 or more below the next one, so that the
    rounded quotient has the same floor as the exact one; [%] is exact;
    and [toString] prints the digits of a whole number below 10^21.  The
    theorems about [formatTime] carry the bound; above it the code gives
    other minutes (from about 6.7e16 on) and an exponent (from 1e21
    on). *)
Definition formatTime (seconds : nat) : string :=
  let mins := seconds / 60 in
  let secs := seconds mod 60 in
  (natToString mins ++ ":" ++ padStart 2 "0" (natToString secs))%string.

Definition notColon (c : ascii) : bool := negb (Ascii.eqb c ":").

(** Reading a time back: the minutes before the colon, the seconds after
    it. *)
Fixpoint splitColon (s : string) : option (string * string) :=
  match s with
  | EmptyString => None
  | String c s' =>
      if Ascii.eqb c ":" then Some ("", s')
      else match splitColon s' with
           | Some (a, b) => Some (String c a, b)
           | None => None
           end
  end.

Definition readNat (s : string) : option nat :=
  Nat.of_uint <$> NilZero.uint_of_string s.

Definition readTime (s : string) : option (nat * nat) :=
  match splitColon s with
  | Some (m, sec) =>
      match readNat m, readNat sec with
      | Some a, Some b => Some (a, b)
      | _, _ => None
      end
  | None => None
  end.

End MessageView.

(** ** The list of chats (ChatsList.tsx) *)

Module ChatsList.

(** A chat, as far as the list reads it; [createdAt] is a number of
    milliseconds and may be missing. *)
Record Chat := { title : string; createdAt : option Z }.

Inductive SortDirection := asc | desc.

(** [const ts = (d) => d ?? 0] *)
Definition ts (d : option Z) : Z :=
  match d with
  | Some n => n
  | None => 0%Z
  end.

(** The comparator handed to [sort]. *)
Definition compareChats (sortDirection : SortDirection) (a b : Chat) : Z :=
  match sortDirection with
  | asc => (ts (createdAt a) - ts (createdAt b))%Z
  | desc => (ts (createdAt b) - ts (createdAt a))%Z
  end.

(** [Array.prototype.sort(compare)]: a stable sort; [x] stays before [y]
    unless [compare(x, y) > 0]. *)
Fixpoint insertBy {A} (compare : A -> A -> Z) (x : A) (l : list A) : list A :=
  match l with
  | [] => [x]
  | y :: l' =>
      if (compare x y <=? 0)%Z then x :: y :: l'
      else y :: insertBy compare x l'
  end.

Definition sortBy {A} (compare : A -> A -> Z) (l : list A) : list A :=
  fold_right (insertBy compare) [] l.

(** [[...allChats].sort(...)] *)
Definition sortedChats (sortDirection : SortDirection) (allChats : list Chat)
  : list Chat :=
  sortBy (compareChats sortDirection) allChats.

(** The order a direction asks for. *)
Definition inOrder (sortDirection : SortDirection) (a b : Chat) : Prop :=
  match sortDirection with
  | asc => (ts (createdAt a) <= ts (createdAt b))%Z
  | desc => (ts (createdAt b) <= ts (createdAt a))%Z
  end.

(** The chats of one timestamp, in the order of a list. *)
Definition withTimestamp (t : Z) (l : list Chat) : list Chat :=
  List.filter (fun c => (ts (createdAt c) =? t)%Z) l.

End ChatsList.

(** ** A source document (SourceDocument.tsx) *)

Module SourceDocument.

(** [document.metadata]: the entries of the object, in their order. *)
Definition Metadata := list (string * string).

Record Document := {
  score : option string;
  metadata : option Metadata;
}.

(** [s.substring(1)] *)
Definition substring1 (s : string) : string :=
  match s with
  | EmptyString => ""
  | String _ s' => s'
  end.

Definition scoreText (document : Document) : option string :=
  (fun s => ("Score: " ++ s ++ " (distance)")%string) <$> score document.

(** [document.metadata?.source?.startsWith('http') ? document.metadata.source
    : undefined] *)
Definition sourceUrl (document : Document) : option string :=
  match metadata document with
  | Some m =>
      match property "source" m with
      | Some s => if startsWith "http" s then Some s else None
      | None => None
      end
  | None => None
  end.

Section Format.

(** [new URL(s).pathname], or nothing when [new URL(s)] throws. *)
Variable pathname : string -> option string.

(** [formattedMetadata]: a copy of the metadata whose source, when it is a
    URL, is cut down to the path without its leading slash. *)
Definition formattedMetadata (document : Document) : Metadata :=
  let formatted := match metadata document with
                   | Some m => m
                   | None => []
                   end in
  match property "source" formatted with
  | Some (String c s) =>
      match pathname (String c s) with
      | Some p => assign "source" (substring1 p) formatted
      | None => formatted
      end
  | _ => formatted
  end.

End Format.

End SourceDocument.

(* ===================================================================== *)
(** * Access of the embeddings task to the embedding models (pipeline.ts) *)
(* ===================================================================== *)

Module ModelAccess.

(** An embedding model of [ragConfig.embeddingsModels]: a Bedrock model
    with its id and, possibly, its region, or a SageMaker model with the
    name of its endpoint. *)
Inductive EmbeddingModel :=
| bedrock (modelId : string) (region : option string)
| sagemaker (modelEndpointName : string).

Record PolicyStatement := {
  actions : list string;
  resources : list string;
}.

(** ** [Map<string, Set<string>>]

    A map and a set keep the order of insertion: a set is the list of its
    elements, a map the list of its entries, read with [property] and
    written with [assign]. *)

(** [set.add(x)] *)
Definition setAdd (x : string) (s : list string) : list string :=
  if existsb (String.eqb x) s then s else s ++ [x].

(** What is left of [s] after its first [n] characters. *)
Fixpoint dropChars (n : nat) (s : string) : string :=
  match n, s with
  | S k, String _ s' => dropChars k s'
  | _, _ => s
  end.

(** The alternatives of the pattern of inference profiles, in its
    order. *)
Definition profilePrefixes : list string := ["us."; "eu."; "apac."; "us-gov."].

(** The first alternative that the id starts with. *)
Definition profilePrefix (modelId : string) : option string :=
  find (fun p => startsWith p modelId) profilePrefixes.

(** The test of the pattern on the id. *)
Definition isInferenceProfile (modelId : string) : bool :=
  match profilePrefix modelId with
  | Some _ => true
  | None => false
  end.

(** [modelId.replace(pattern, '')] *)
Definition baseModelId (modelId : string) : string :=
  match profilePrefix modelId with
  | Some p => dropChars (String.length p) modelId
  | None => modelId
  end.

Section Account.

(** [cdk.Aws.PARTITION], [cdk.Aws.REGION] and [cdk.Aws.ACCOUNT_ID]. *)
Variable PARTITION : string.
Variable REGION : string.
Variable ACCOUNT_ID : string.

(** *** Bedrock *)

(** The callback of the first [forEach]. *)
Definition addModel (regionModelIds : list (string * list string))
           (model : EmbeddingModel) : list (string * list string) :=
  match model with
  | bedrock modelId region =>
      let region := match region with Some r => r | None => REGION end in
      let modelIds := match property region regionModelIds with
                      | Some s => s
                      | None => []
                      end in
      assign region (setAdd modelId modelIds) regionModelIds
  | sagemaker _ => regionModelIds
  end.

Definition regionModelIds (embeddingsModels : list EmbeddingModel)
  : list (string * list string) :=
  fold_left addModel embeddingsModels [].

(** The callback of [flatMap]. *)
Definition modelResources (region modelId : string) : list string :=
  if isInferenceProfile modelId
  then [ ("arn:" ++ PARTITION ++ ":bedrock:" ++ region ++ ":" ++ ACCOUNT_ID
            ++ ":inference-profile/" ++ modelId)%string;
         ("arn:" ++ PARTITION ++ ":bedrock:*::foundation-model/"
            ++ baseModelId modelId)%string ]
  else [ ("arn:" ++ PARTITION ++ ":bedrock:" ++ region
            ++ "::foundation-model/" ++ modelId)%string ].

(** The statements the second [forEach] adds to the task role. *)
Definition bedrockStatements (embeddingsModels : list EmbeddingModel)
  : list PolicyStatement :=
  map (fun entry =>
         {| actions := ["bedrock:InvokeModel";
                        "bedrock:InvokeModelWithResponseStream"];
            resources := flat_map (modelResources entry.1) entry.2 |})
      (regionModelIds embeddingsModels).

(** *** SageMaker *)

Definition endpointArn (modelEndpointName : string) : string :=
  ("arn:aws:sagemaker:" ++ REGION ++ ":" ++ ACCOUNT_ID ++ ":endpoint/"
     ++ modelEndpointName)%string.

(** The callback of the third [forEach], on [endpointSet] and
    [sagemakerEndpoints]. *)
Definition addEndpoint (st : list string * list string)
           (model : EmbeddingModel) : list string * list string :=
  let '(endpointSet, sagemakerEndpoints) := st in
  match model with
  | sagemaker name =>
      if existsb (String.eqb name) endpointSet then st
      else (endpointSet ++ [name], sagemakerEndpoints ++ [endpointArn name])
  | bedrock _ _ => st
  end.

Definition sagemakerEndpoints (embeddingsModels : list EmbeddingModel)
  : list string :=
  snd (fold_left addEndpoint embeddingsModels ([], [])).

(** The statement added when [sagemakerEndpoints.length > 0]. *)
Definition sagemakerStatements (embeddingsModels : list EmbeddingModel)
  : list PolicyStatement :=
  match sagemakerEndpoints embeddingsModels with
  | [] => []
  | endpoints =>
      [ {| actions := ["sagemaker:InvokeEndpoint";
                       "sagemaker:InvokeEndpointWithResponseStream"];
           resources := endpoints |} ]
  end.

(** The region a Bedrock model is granted in. *)
Definition regionOf (region : option string) : string :=
  match region with Some r => r | None => REGION end.

(** A Bedrock model of the list is configured for a region with an id. *)
Definition configured (models : list EmbeddingModel) (region id : string)
  : Prop :=
  exists r, In (bedrock id r) models /\ regionOf r = region.

(** What the first loop keeps true of the map. *)
Definition MapInv (models : list EmbeddingModel)
           (acc : list (string * list string)) : Prop :=
  List.NoDup (map fst acc) /\
  (forall region ids, property region acc = Some ids ->
                      List.NoDup ids /\ ids <> []) /\
  (forall region id,
      (exists ids, property region acc = Some ids /\ In id ids) <->
      configured models region id).

(** What the third loop keeps true of the set and of the list. *)
Definition EndpointInv (models : list EmbeddingModel)
           (st : list string * list string) : Prop :=
  st.2 = map endpointArn st.1 /\
  List.NoDup st.1 /\
  (forall name, In name st.1 <-> In (sagemaker name) models).

End Account.

End ModelAccess.

(* ===================================================================== *)
(** * The environments of the functions and of the container
      (pipeline.ts) *)
(* ===================================================================== *)

Module Environment.
Import Chunking.

(** An object of environment variables. *)
Definition Env := list (string * string).

(** [{...a, ...b}]: the entries of [b] are assigned to a copy of [a], in
    their order. *)
Definition spread (a b : Env) : Env :=
  fold_left (fun acc entry => assign entry.1 entry.2 acc) b a.

(** An object literal: its spreads and its runs of entries, from left to
    right. *)
Definition object (parts : list Env) : Env := fold_left spread parts [].

Section Pipeline.

(** [constants.LAMBDA_COMMON_ENVIRONMENT] and [constants.METRICS_NAMESPACE]
    of [lib/infra/common/constants.ts], and the two chunking constants. *)
Variable LAMBDA_COMMON_ENVIRONMENT : Env.
Variable METRICS_NAMESPACE : string.
Variable constants_CHUNK_SIZE_DOC_SPLIT : string.
Variable constants_OVERLAP_FOR_DOC_SPLIT : string.

(** The names and addresses that the stack resolves. *)
Variable cacheTableName : string.
Variable embeddingsModels : string.
Variable processedBucketName : string.
Variable linksTableName : string.
Variable mediaBucketName : string.
Variable REGION : string.
Variable rdsSecretArn : string.
Variable rdsEndpoint : string.

(** The [environment] of [cacheUpdateFunction]. *)
Definition cacheUpdateEnvironment : Env :=
  object [ LAMBDA_COMMON_ENVIRONMENT;
           [ ("CACHE_TABLE_NAME", cacheTableName);
             ("POWERTOOLS_SERVICE_NAME", "ingestion-input-validation") ] ].

Definition ingestionLambdaCommonEnvironment : Env :=
  object [ [ ("METRICS_NAMESPACE", METRICS_NAMESPACE);
             ("CACHE_TABLE_NAME", cacheTableName);
             ("EMBEDDINGS_SAGEMAKER_MODELS", embeddingsModels);
             ("PROCESSED_BUCKET_NAME", processedBucketName) ] ].

(** The [environment] of [inputValidationFunction]. *)
Definition inputValidationEnvironment : Env :=
  object [ LAMBDA_COMMON_ENVIRONMENT;
           ingestionLambdaCommonEnvironment;
           [ ("POWERTOOLS_SERVICE_NAME", "ingestion-input-validation") ] ].

(** The [environment] of the container [embeddings]. *)
Definition embeddingsEnvironment (corpusConfig : option DefaultCorpusConfig)
  : Env :=
  let chunking := containerEnvironment constants_CHUNK_SIZE_DOC_SPLIT
                                       constants_OVERLAP_FOR_DOC_SPLIT
                                       corpusConfig in
  object [ ingestionLambdaCommonEnvironment;
           [ ("POWERTOOLS_SERVICE_NAME", "ingestion-embeddings");
             ("LINKS_TABLE_NAME", linksTableName);
             ("MEDIA_BUCKET_NAME", mediaBucketName);
             ("AWS_REGION", REGION);
             ("REGION_NAME", REGION);
             ("RDS_SECRET_ARN", rdsSecretArn);
             ("RDS_ENDPOINT", rdsEndpoint);
             ("CHUNK_SIZE_DOC_SPLIT", CHUNK_SIZE_DOC_SPLIT chunking);
             ("OVERLAP_FOR_DOC_SPLIT", OVERLAP_FOR_DOC_SPLIT chunking) ] ].

(** The [environment] of [vectorStoreManagementFunction]. *)
Definition vectorStoreManagementEnvironment : Env :=
  object [ LAMBDA_COMMON_ENVIRONMENT;
           ingestionLambdaCommonEnvironment;
           [ ("POWERTOOLS_SERVICE_NAME", "ingestion-vector-store-management");
             ("RDS_SECRET_ARN", rdsSecretArn);
             ("RDS_ENDPOINT", rdsEndpoint);
             ("CHUNK_SIZE_DOC_SPLIT", constants_CHUNK_SIZE_DOC_SPLIT);
             ("OVERLAP_FOR_DOC_SPLIT", constants_OVERLAP_FOR_DOC_SPLIT) ] ].

(** The environments of the three functions and, for a corpus
    configuration, of the container. *)
Definition environments (corpusConfig : option DefaultCorpusConfig)
  : list Env :=
  [ cacheUpdateEnvironment; inputValidationEnvironment;
    embeddingsEnvironment corpusConfig; vectorStoreManagementEnvironment ].

End Pipeline.

End Environment.

(* ===================================================================== *)
(** * Properties of the chat message rendering *)
(* ===================================================================== *)

Lemma lastOpt_snoc {A} (l : list A) (x : A) : lastOpt (l ++ [x]) = Some x.
Proof.
  induction l as [|y l IH]; [reflexivity|].
  simpl. destruct (l ++ [x]) eqn:E; [destruct l; discriminate|].
  exact IH.
Qed.

Lemma lastOpt_cons {A} (x : A) (l : list A) :
  lastOpt (x :: l) = match lastOpt l with Some y => Some y | None => Some x end.
Proof.
  revert x. induction l as [|y l IH]; intros x; [reflexivity|].
  change (lastOpt (x :: y :: l)) with (lastOpt (y :: l)).
  rewrite IH. destruct (lastOpt l); reflexivity.
Qed.

Module MessageFacts.
Import Message.

Section Parse.

Variable number : Type.
Variable parseFloat : string -> number.

Abbreviation timestampLoop := (timestampLoop number parseFloat).
Abbreviation parseMessageContent := (parseMessageContent number parseFloat).
Abbreviation lastTimestamp := (lastTimestamp number parseFloat).
Abbreviation MatchEntry := (MatchEntry number).
Abbreviation ReactNode := (ReactNode number).

Abbreviation tsStep := (timestampStep number parseFloat).

Lemma tsLoop_timestamp ms ts all :
  fst (fold_left tsStep ms (ts, all)) =
  match lastOpt (map group1 ms) with
  | Some c => Some (parseFloat c)
  | None => ts
  end.
Proof.
  revert ts all. induction ms as [|m ms IH]; intros ts all; [reflexivity|].
  cbn [fold_left map]. unfold timestampStep at 2. rewrite IH, lastOpt_cons.
  destruct (lastOpt (map group1 ms)); reflexivity.
Qed.

Lemma tsLoop_nodes ms ts all :
  Forall (fun e => exists k, node e = Fragment k) all ->
  Forall (fun e => exists k, node e = Fragment k)
         (snd (fold_left tsStep ms (ts, all))).
Proof.
  revert ts all. induction ms as [|m ms IH]; intros ts all Hall; [exact Hall|].
  cbn [fold_left]. unfold timestampStep at 2. apply IH.
  apply Forall_app; split; [exact Hall|].
  constructor; [|constructor]. eexists; reflexivity.
Qed.

(** After the first loop [timestamp] holds the number of the last
    timestamp tag. *)
Lemma timestampLoop_timestamp text :
  fst (timestampLoop (execAll timestampPattern text 0 0)) = lastTimestamp text.
Proof.
  unfold Message.timestampLoop, Message.lastTimestamp.
  rewrite tsLoop_timestamp.
  destruct (lastOpt _); reflexivity.
Qed.

Lemma timestampLoop_fragments ms :
  Forall (fun e => exists k, node e = Fragment k) (snd (timestampLoop ms)).
Proof.
  unfold Message.timestampLoop. apply tsLoop_nodes. constructor.
Qed.

Lemma insertByStart_perm (x : MatchEntry) l :
  Permutation (insertByStart x l) (x :: l).
Proof.
  induction l as [|y l IH]; [reflexivity|].
  simpl. destruct (start x <=? start y); [reflexivity|].
  rewrite IH. apply perm_swap.
Qed.

Lemma sortByStart_perm (l : list MatchEntry) : Permutation (sortByStart l) l.
Proof.
  induction l as [|x l IH]; [reflexivity|].
  simpl. rewrite insertByStart_perm. now constructor.
Qed.

(** The matches are listed in the order of their start. *)
Lemma insertByStart_sorted (x : MatchEntry) l :
  Sorted (fun a b => start a <= start b) l ->
  Sorted (fun a b => start a <= start b) (insertByStart x l).
Proof.
  induction 1 as [|y l Hs IH Hhd]; simpl.
  - repeat constructor.
  - destruct (Nat.leb_spec (start x) (start y)) as [Hle|Hgt].
    + repeat constructor; assumption.
    + constructor; [exact IH|].
      destruct l as [|z l]; simpl.
      * constructor. lia.
      * destruct (Nat.leb_spec (start x) (start z)); constructor.
        -- lia.
        -- now inversion Hhd.
Qed.

Lemma sortByStart_sorted (l : list MatchEntry) :
  Sorted (fun a b => start a <= start b) (sortByStart l).
Proof.
  induction l; simpl; [constructor|]. now apply insertByStart_sorted.
Qed.

(** The parts are text segments and the nodes of the matches, and no node
    of a match is lost. *)
Lemma buildParts_nodes text (ms : list MatchEntry) li parts (n : ReactNode) :
  In n (fst (buildParts text ms li parts)) ->
  In n parts \/ (exists s, n = TextNode s) \/ In n (map node ms).
Proof.
  revert li parts. induction ms as [|m ms IH]; intros li parts H; simpl in *.
  - now left.
  - apply IH in H. destruct H as [H|[H|H]]; [|now auto|now auto].
    apply in_app_or in H. destruct H as [H|[<-|[]]]; [|now auto].
    destruct (li <? start m); [|now left].
    apply in_app_or in H. destruct H as [H|[<-|[]]]; [now left|].
    right; left. eexists; reflexivity.
Qed.

Lemma buildParts_keeps text (ms : list MatchEntry) li parts (n : ReactNode) :
  In n parts \/ In n (map node ms) ->
  In n (fst (buildParts text ms li parts)).
Proof.
  revert li parts. induction ms as [|m ms IH]; intros li parts H; simpl in *.
  - destruct H as [H|[]]. exact H.
  - apply IH. destruct H as [H|[H|H]].
    + left. apply in_or_app. left.
      destruct (li <? start m); [apply in_or_app|]; auto.
    + left. apply in_or_app. right. now left.
    + now right.
Qed.

Abbreviation matchNodes := (matchNodes number parseFloat).

Lemma parse_nodes text (n : ReactNode) :
  In n (parseMessageContent text) ->
  (exists s, n = TextNode s) \/ In n (matchNodes text).
Proof.
  unfold Message.parseMessageContent, Message.matchNodes.
  destruct text as [|c text']; [intros [<-|[]]; left; eexists; reflexivity|].
  set (text := String c text').
  rewrite <- (timestampLoop_timestamp text).
  destruct (timestampLoop (execAll timestampPattern text 0 0))
    as [ts all0] eqn:El.
  cbn [fst snd].
  match goal with |- context [sortByStart ?l] => set (all := l) end.
  destruct (buildParts _ _ _ _) as [parts li] eqn:Eb.
  assert (Hparts : forall n, In n parts ->
            (exists s, n = TextNode s) \/
            In n (map node (all0 ++ videoEntries number ts
                                      (execAll videoPattern text 0 0)
                                 ++ imageEntries number
                                      (execAll imagePattern text 0 0)))).
  { intros n' Hn'.
    pose proof (buildParts_nodes text (sortByStart all) 0 [] n') as Hb.
    rewrite Eb in Hb. destruct (Hb Hn') as [[]|[H|H]]; [now left|].
    right. eapply Permutation_in; [|exact H].
    apply Permutation_map. rewrite sortByStart_perm.
    unfold all. now rewrite <- app_assoc. }
  intros H.
  assert (Hin : In n parts \/ exists s, n = TextNode s).
  { destruct (li <? String.length text).
    - destruct parts; simpl in H.
      + destruct H as [<-|[]]. right; eexists; reflexivity.
      + destruct H as [<-|H]; [left; now left|].
        apply in_app_or in H. destruct H as [H|[<-|[]]].
        * left; now right.
        * right; eexists; reflexivity.
    - destruct parts; [|now left].
      destruct H as [<-|[]]. right; eexists; reflexivity. }
  destruct Hin as [Hin|Hin]; [|now left].
  now apply Hparts.
Qed.

Lemma parse_keeps text (n : ReactNode) :
  In n (matchNodes text) -> In n (parseMessageContent text).
Proof.
  unfold Message.parseMessageContent, Message.matchNodes.
  destruct text as [|c text']; [intros []|].
  set (text := String c text').
  rewrite <- (timestampLoop_timestamp text).
  destruct (timestampLoop (execAll timestampPattern text 0 0))
    as [ts all0] eqn:El.
  cbn [fst snd]. intros H.
  match goal with |- context [sortByStart ?l] => set (all := l) end.
  destruct (buildParts _ _ _ _) as [parts li] eqn:Eb.
  assert (Hp : In n parts).
  { pose proof (buildParts_keeps text (sortByStart all) 0 [] n) as Hb.
    rewrite Eb in Hb. apply Hb. right.
    eapply Permutation_in; [|exact H].
    apply Permutation_map. rewrite sortByStart_perm.
    unfold all. now rewrite <- app_assoc. }
  destruct parts as [|p parts]; [destruct Hp|].
  destruct (li <? String.length text); [apply in_or_app; left|]; exact Hp.
Qed.

(** C10. For every message text, every video node that
    [parseMessageContent] renders carries the number of the last timestamp
    tag of the whole text (no timestamp when the text has no timestamp
    tag), wherever the timestamp tags stand relative to the video tags; and
    every video tag of the text is rendered so. *)
Theorem video_timestamp_is_last (text : string) :
  (forall key url ts,
      In (VideoRenderer key url ts) (parseMessageContent text) ->
      ts = lastTimestamp text) /\
  (forall m,
      In m (execAll videoPattern text 0 0) ->
      In (VideoRenderer ("vid-" ++ natToString (index m))%string (group1 m)
            (lastTimestamp text))
         (parseMessageContent text)).
Proof.
  split.
  - intros key url ts H. apply parse_nodes in H.
    destruct H as [[s Hs]|H]; [discriminate Hs|].
    unfold Message.matchNodes in H. apply in_map_iff in H.
    destruct H as [e [He Hin]].
    apply in_app_or in Hin. destruct Hin as [Hin|Hin].
    + pose proof (timestampLoop_fragments
                    (execAll timestampPattern text 0 0)) as Hf.
      rewrite List.Forall_forall in Hf. destruct (Hf e Hin) as [k Hk].
      congruence.
    + apply in_app_or in Hin. destruct Hin as [Hin|Hin].
      * unfold videoEntries in Hin. apply in_map_iff in Hin.
        destruct Hin as [m [<- _]]. simpl in He. congruence.
      * unfold imageEntries in Hin. apply in_map_iff in Hin.
        destruct Hin as [m [<- _]]. discriminate He.
  - intros m Hm. apply parse_keeps. unfold Message.matchNodes.
    apply in_map_iff.
    exists {| start := index m; end_ := index m + matchLength m;
              node := VideoRenderer ("vid-" ++ natToString (index m))%string
                        (group1 m) (lastTimestamp text) |}.
    split; [reflexivity|].
    apply in_or_app; right. apply in_or_app; left.
    unfold videoEntries. apply in_map_iff. exists m. now split.
Qed.

End Parse.

(** The matches of a global pattern are listed by increasing index: the
    last match of the list is the last one in the text. *)
Lemma execAll_index_lower pattern s i skip m :
  In m (execAll pattern s i skip) -> i + skip <= index m.
Proof.
  revert i skip. induction s as [|c s IH]; intros i skip H; [destruct H|].
  simpl in H. destruct skip as [|k].
  - destruct (pattern (String c s)) as [[len cap]|].
    + destruct H as [<-|H]; [simpl; lia|]. apply IH in H. lia.
    + apply IH in H. lia.
  - apply IH in H. lia.
Qed.

Lemma execAll_increasing pattern s i skip :
  StronglySorted (fun a b => index a < index b) (execAll pattern s i skip).
Proof.
  revert i skip. induction s as [|c s IH]; intros i skip; [constructor|].
  simpl. destruct skip as [|k]; [|apply IH].
  destruct (pattern (String c s)) as [[len cap]|]; [|apply IH].
  constructor; [apply IH|].
  apply List.Forall_forall. intros m Hm.
  apply execAll_index_lower in Hm. simpl. lia.
Qed.

(** A video tag that precedes both timestamp tags of its text is rendered
    with the number of the second one. *)
Lemma video_timestamp_is_last_witness :
  let text := "(!?#Video:https://v.mp4) at (!?#Timestamp:12.5) or (!?#Timestamp:7)" in
  In (VideoRenderer "vid-0" "https://v.mp4" (Some "7"))
     (parseMessageContent string id text) /\
  Some "7" = lastTimestamp string id text.
Proof.
  intros text. split.
  - apply (proj2 (video_timestamp_is_last string id text)
             {| index := 0; matchLength := 24; group1 := "https://v.mp4" |}).
    vm_compute. left. reflexivity.
  - apply (proj1 (video_timestamp_is_last string id text)
             "vid-0" "https://v.mp4" (Some "7")).
    vm_compute. left. reflexivity.
Defined.

End MessageFacts.

(* ===================================================================== *)
(** * Properties of the chunking environment *)
(* ===================================================================== *)

Module ChunkingFacts.
Import Chunking.

(** Without a configured value the constant is used. *)
Lemma orDefault_None d : orDefault None d = d.
Proof. reflexivity. Qed.

(** A configured value other than zero is used. *)
Lemma orDefault_nonzero n d : n <> 0%Z -> orDefault (Some n) d = numberToString n.
Proof.
  intros Hn. unfold orDefault.
  destruct (Z.eqb_spec n 0); [contradiction|reflexivity].
Qed.

Lemma containerEnvironment_nonzero dsize doverlap size overlap :
  size <> 0%Z -> overlap <> 0%Z ->
  containerEnvironment dsize doverlap (withChunking size overlap) =
  {| CHUNK_SIZE_DOC_SPLIT := numberToString size;
     OVERLAP_FOR_DOC_SPLIT := numberToString overlap |}.
Proof.
  intros Hs Ho. unfold containerEnvironment. f_equal.
  - exact (orDefault_nonzero size dsize Hs).
  - exact (orDefault_nonzero overlap doverlap Ho).
Qed.

Lemma containerEnvironment_absent dsize doverlap :
  containerEnvironment dsize doverlap None =
  {| CHUNK_SIZE_DOC_SPLIT := dsize; OVERLAP_FOR_DOC_SPLIT := doverlap |}.
Proof. reflexivity. Qed.

(** C8. The code at the failing input: with a chunk overlap of 0 in the
    corpus configuration the container is given the default overlap
    constant, whatever it is, and not the configured 0. *)
Theorem zero_overlap_replaced_by_default (dsize doverlap : string) :
  configuredChunkOverlap (withChunking 1000 0) = Some 0%Z /\
  numberToString 0 = "0" /\
  OVERLAP_FOR_DOC_SPLIT
    (containerEnvironment dsize doverlap (withChunking 1000 0)) = doverlap /\
  CHUNK_SIZE_DOC_SPLIT
    (containerEnvironment dsize doverlap (withChunking 1000 0)) = "1000".
Proof. repeat split. Qed.

End ChunkingFacts.

(* ===================================================================== *)
(** * Properties of the stack *)
(* ===================================================================== *)

Module StackFacts.
Import Stack.

Lemma isKnowledgeBase_spec systemConfig :
  isKnowledgeBase systemConfig = true <->
  corpusTypeOf systemConfig = Some "knowledgebase".
Proof.
  unfold isKnowledgeBase. destruct (corpusTypeOf systemConfig) as [t|].
  - rewrite String.eqb_eq. split; congruence.
  - split; discriminate.
Qed.

(** C9. The ingestion pipeline, with its state machine, its cache table
    and its ECS embeddings cluster, is constructed if and only if the
    corpus type of the system configuration is not 'knowledgebase'; with
    the corpus type 'knowledgebase' the stack has the Bedrock role, the
    OpenSearch vector store and the knowledge base instead, and no
    construct of the ingestion pipeline. *)
Theorem pipeline_iff_not_knowledgebase (systemConfig : SystemConfig) :
  let stack := FrancisChatbotStack systemConfig in
  (hasConstruct "IngestionPipeline" stack = true <->
   corpusTypeOf systemConfig <> Some "knowledgebase") /\
  (forall part,
      In part ["IngestionStateMachine"; "CacheTable"; "EmbeddingsCluster"] ->
      (isConstructed ["IngestionPipeline"; part] stack = true <->
       corpusTypeOf systemConfig <> Some "knowledgebase")) /\
  (corpusTypeOf systemConfig = Some "knowledgebase" ->
   isConstructed ["KnolwedgeBase"] stack = true /\
   isConstructed ["OpenSearchVectorStore"] stack = true /\
   isConstructed ["BedrockExecutionRole"] stack = true /\
   hasConstruct "IngestionPipeline" stack = false /\
   hasConstruct "PgVectorStore" stack = false) /\
  (corpusTypeOf systemConfig <> Some "knowledgebase" ->
   hasConstruct "KnolwedgeBase" stack = false /\
   hasConstruct "OpenSearchVectorStore" stack = false).
Proof.
  intros stack. subst stack. unfold FrancisChatbotStack.
  pose proof (isKnowledgeBase_spec systemConfig) as Hkb.
  destruct (isKnowledgeBase systemConfig) eqn:E.
  - assert (Ht : corpusTypeOf systemConfig = Some "knowledgebase")
      by now apply Hkb.
    split; [split; [discriminate|congruence]|].
    split; [|split; [intros _; repeat split|congruence]].
    intros part [<-|[<-|[<-|[]]]]; (split; [discriminate|congruence]).
  - assert (Ht : corpusTypeOf systemConfig <> Some "knowledgebase").
    { intros H. apply Hkb in H. discriminate. }
    split; [split; [intros _; exact Ht|reflexivity]|].
    split; [|split; [congruence|intros _; split; reflexivity]].
    intros part [<-|[<-|[<-|[]]]]; (split; [intros _; exact Ht|reflexivity]).
Qed.

(** The default corpus type builds the pipeline; so does a configuration
    without corpus configuration. *)
Lemma pipeline_iff_not_knowledgebase_witness :
  let systemConfig := {| corpusConfig := Some {| corpusType := "default" |} |} in
  hasConstruct "IngestionPipeline" (FrancisChatbotStack systemConfig) = true /\
  isConstructed ["IngestionPipeline"; "CacheTable"]
    (FrancisChatbotStack systemConfig) = true /\
  hasConstruct "KnolwedgeBase" (FrancisChatbotStack systemConfig) = false /\
  isConstructed ["KnolwedgeBase"]
    (FrancisChatbotStack
       {| corpusConfig := Some {| corpusType := "knowledgebase" |} |}) = true.
Proof.
  intros systemConfig.
  pose proof (pipeline_iff_not_knowledgebase systemConfig) as [H1 [H2 [_ H4]]].
  pose proof (pipeline_iff_not_knowledgebase
                {| corpusConfig := Some {| corpusType := "knowledgebase" |} |})
    as [_ [_ [H3 _]]].
  assert (Hne : corpusTypeOf systemConfig <> Some "knowledgebase")
    by (vm_compute; discriminate).
  split; [apply H1; exact Hne|].
  split; [apply (H2 "CacheTable"); [simpl; auto|exact Hne]|].
  split; [apply (H4 Hne)|].
  apply H3. reflexivity.
Defined.

End StackFacts.

(* ===================================================================== *)
(** * Properties of the secondary index of the cache table *)
(* ===================================================================== *)

Module CacheIndexFacts.
Import CacheIndex.

Module S := OrdersEx.String_as_OT.

Lemma cmp_eq a b : S.compare a b = Eq -> a = b.
Proof. destruct (S.compare_spec a b); congruence. Qed.

Lemma cmp_refl a : S.compare a a = Eq.
Proof.
  destruct (S.compare_spec a a) as [_|H|H]; [reflexivity| |];
    exfalso; exact (irreflexivity S.lt a H).
Qed.

Lemma cmp_gt_lt a b : S.compare a b = Gt <-> S.compare b a = Lt.
Proof.
  split; intros H.
  - destruct (S.compare_spec a b) as [_|_|Hlt]; try discriminate. exact Hlt.
  - destruct (S.compare_spec a b) as [->|Hlt|_]; [| |reflexivity].
    + rewrite cmp_refl in H. discriminate.
    + exfalso. apply (irreflexivity S.lt a).
      exact (transitivity (R := S.lt) Hlt H).
Qed.

Lemma cmp_lt_trans a b c :
  S.compare a b = Lt -> S.compare b c = Lt -> S.compare a c = Lt.
Proof. intros H1 H2. exact (transitivity (R := S.lt) H1 H2). Qed.

Lemma strLeb_total a b : strLeb a b = true \/ strLeb b a = true.
Proof.
  unfold strLeb. destruct (S.compare a b) eqn:E; auto.
  apply cmp_gt_lt in E. rewrite E. auto.
Qed.

Lemma strLeb_trans a b c :
  strLeb a b = true -> strLeb b c = true -> strLeb a c = true.
Proof.
  unfold strLeb. intros H1 H2.
  destruct (S.compare a b) eqn:E1; try discriminate;
    destruct (S.compare b c) eqn:E2; try discriminate.
  - apply cmp_eq in E1, E2. subst. now rewrite cmp_refl.
  - apply cmp_eq in E1. subst. now rewrite E2.
  - apply cmp_eq in E2. subst. now rewrite E1.
  - now rewrite (cmp_lt_trans _ _ _ E1 E2).
Qed.

#[local] Instance entryLe_total : Total entryLe.
Proof.
  intros a b. unfold entryLe, entryLeb.
  destruct (S.compare (partition a) (partition b)) eqn:E.
  - apply cmp_eq in E. rewrite E, cmp_refl.
    destruct (strLeb_total (sort a) (sort b)) as [->| ->]; simpl; auto.
  - left. exact I.
  - apply cmp_gt_lt in E. rewrite E. right. exact I.
Qed.

#[local] Instance entryLe_trans : Transitive entryLe.
Proof.
  intros a b c. unfold entryLe, entryLeb. intros H1 H2.
  destruct (S.compare (partition a) (partition b)) eqn:E1; [| |destruct H1];
    (destruct (S.compare (partition b) (partition c)) eqn:E2; [| |destruct H2]).
  - apply cmp_eq in E1, E2. rewrite E1, E2, cmp_refl.
    apply Is_true_true in H1, H2. apply Is_true_true.
    exact (strLeb_trans _ _ _ H1 H2).
  - apply cmp_eq in E1. rewrite E1, E2. exact I.
  - apply cmp_eq in E2. rewrite <- E2, E1. exact I.
  - rewrite (cmp_lt_trans _ _ _ E1 E2). exact I.
Qed.

(** An entry not above another one of the same partition has the smaller
    sort key; the partition of an entry not above another is not above. *)
Lemma entryLe_same_partition a b :
  partition a = partition b -> entryLe a b -> strLeb (sort a) (sort b) = true.
Proof.
  unfold entryLe, entryLeb. intros ->. rewrite cmp_refl.
  apply Is_true_true.
Qed.

Lemma entryLe_partition a b :
  entryLe a b -> S.compare (partition a) (partition b) <> Gt.
Proof.
  unfold entryLe, entryLeb. destruct (S.compare _ _); [discriminate..|tauto].
Qed.

Lemma filter_none {A} (P : A -> Prop) `{!forall x, Decision (P x)} (l : list A) :
  (forall y, In y l -> ~ P y) -> filter P l = [].
Proof.
  induction l as [|x l IH]; intros Hno; [reflexivity|].
  rewrite filter_cons_False by (apply Hno; now left).
  apply IH. intros y Hy. apply Hno. now right.
Qed.

(** A list in the order of the index is the partitions one after the
    other: the entries of a partition [v] stand together, after every
    entry of a smaller partition and before every entry of a larger one. *)
Lemma sorted_partition_segment v (l : list IndexEntry) :
  StronglySorted entryLe l ->
  l = filter (fun e => S.compare (partition e) v = Lt) l
      ++ filter (fun e => partition e = v) l
      ++ filter (fun e => S.compare (partition e) v = Gt) l.
Proof.
  induction 1 as [|x l Hs IH Hall]; [reflexivity|].
  rewrite !filter_cons.
  destruct (S.compare (partition x) v) eqn:E.
  - (* the head is in the partition: nothing smaller follows *)
    pose proof (cmp_eq _ _ E) as Ev.
    rewrite decide_False by discriminate.
    rewrite decide_True by exact Ev.
    rewrite decide_False by discriminate.
    assert (Hnil : filter (fun e => S.compare (partition e) v = Lt) l = []).
    { apply filter_none. intros y Hy Hlt.
      rewrite List.Forall_forall in Hall.
      apply (entryLe_partition x y (Hall y Hy)).
      rewrite Ev. apply cmp_gt_lt. exact Hlt. }
    rewrite Hnil in IH |- *. simpl in *. now f_equal.
  - rewrite decide_True by reflexivity.
    rewrite decide_False.
    2:{ intros Ev. rewrite Ev, cmp_refl in E. discriminate. }
    rewrite decide_False by discriminate. simpl. now f_equal.
  - (* the head is above the partition: so is the rest *)
    rewrite decide_False by discriminate.
    rewrite decide_False.
    2:{ intros Ev. rewrite Ev, cmp_refl in E. discriminate. }
    rewrite decide_True by reflexivity.
    assert (Hgt : forall y, In y l -> S.compare (partition y) v = Gt).
    { intros y Hy. rewrite List.Forall_forall in Hall.
      pose proof (entryLe_partition x y (Hall y Hy)) as Hxy.
      apply cmp_gt_lt in E. apply cmp_gt_lt.
      destruct (S.compare (partition x) (partition y)) eqn:Exy;
        [| |contradiction].
      - apply cmp_eq in Exy. now rewrite <- Exy.
      - exact (cmp_lt_trans _ _ _ E Exy). }
    assert (Hnil1 : filter (fun e => S.compare (partition e) v = Lt) l = []).
    { apply filter_none. intros y Hy Hlt.
      rewrite (Hgt y Hy) in Hlt. discriminate. }
    assert (Hnil2 : filter (fun e => partition e = v) l = []).
    { apply filter_none. intros y Hy Hv. pose proof (Hgt y Hy) as Hc.
      rewrite Hv, cmp_refl in Hc. discriminate. }
    rewrite Hnil1, Hnil2 in IH |- *. simpl in *. now f_equal.
Qed.

(** Within one partition the order of the index is the order of the sort
    key. *)
Lemma sorted_partition_by_sort v (l : list IndexEntry) :
  StronglySorted entryLe l ->
  StronglySorted (fun a b => strLeb (sort a) (sort b) = true)
                 (filter (fun e => partition e = v) l).
Proof.
  induction 1 as [|x l Hs IH Hall]; [constructor|].
  rewrite filter_cons. destruct (decide (partition x = v)) as [Hx|Hx];
    [|exact IH].
  constructor; [exact IH|].
  apply List.Forall_forall. intros y Hy.
  apply list_elem_of_In, list_elem_of_filter in Hy. destruct Hy as [Hyv Hy].
  rewrite List.Forall_forall in Hall.
  apply entryLe_same_partition; [cbv beta in Hyv; congruence|].
  apply Hall. now apply list_elem_of_In.
Qed.

Lemma project_GSI1 it e :
  project GSI1 it = Some e <->
  it !! "UpdatedStatus" = Some (partition e) /\
  it !! "FileURI" = Some (sort e) /\ item e = it.
Proof.
  unfold project. simpl. split.
  - intros H.
    destruct (it !! "UpdatedStatus"); simpl in H; [|discriminate].
    destruct (it !! "FileURI"); simpl in H; [|discriminate].
    now inversion H.
  - intros (-> & -> & <-). simpl. now destruct e.
Qed.

Lemma omap_cons {A B} (f : A -> option B) (x : A) (l : list A) :
  omap f (x :: l) =
  match f x with Some y => y :: omap f l | None => omap f l end.
Proof. reflexivity. Qed.

(** The query answers with the items of the table that have the status,
    each as often as the table has it. *)
Lemma query_complete status (table : list Item) :
  query GSI1 status table ≡ₚ filter (hasStatus status) table.
Proof.
  unfold query, queryEntries, indexEntries.
  rewrite merge_sort_Permutation.
  induction table as [|it table IH]; [reflexivity|].
  rewrite filter_cons, omap_cons.
  destruct (project GSI1 it) as [e|] eqn:Ep.
  - apply project_GSI1 in Ep. destruct Ep as (Hs & Hu & Hi).
    rewrite filter_cons.
    destruct (decide (partition e = status)) as [Hp|Hp].
    + rewrite decide_True.
      2:{ split; [congruence|eauto]. }
      rewrite fmap_cons, Hi. now constructor.
    + rewrite decide_False; [exact IH|].
      intros [Hst _]. congruence.
  - rewrite decide_False; [exact IH|].
    intros [Hst [u Hu]].
    assert (project GSI1 it =
            Some {| partition := status; sort := u; item := it |}) as Hc
      by (apply project_GSI1; auto).
    congruence.
Qed.

(** C6. The index GSI1 of the cache table orders its entries by the pair
    (status, id): the entries stand in that order, every item with both
    attributes has its entry, and for every status the query on the index
    answers with exactly the items of that status, ordered by id, which are
    one uninterrupted segment of the index (the only part a query reads). *)
Theorem GSI1_orders_by_status_then_id (table : list Item) :
  partitionKey (indexKeys GSI1) = {| name := "UpdatedStatus"; type := STRING |} /\
  sortKey (indexKeys GSI1) = {| name := "FileURI"; type := STRING |} /\
  StronglySorted entryLe (indexEntries GSI1 table) /\
  indexEntries GSI1 table ≡ₚ omap (project GSI1) table /\
  forall status,
    query GSI1 status table ≡ₚ filter (hasStatus status) table /\
    StronglySorted (fun a b => strLeb (fileURI a) (fileURI b) = true)
                   (query GSI1 status table) /\
    exists before after,
      indexEntries GSI1 table
        = before ++ queryEntries GSI1 status table ++ after /\
      Forall (fun e => S.compare (partition e) status = Lt) before /\
      Forall (fun e => S.compare (partition e) status = Gt) after.
Proof.
  assert (Hsorted : StronglySorted entryLe (indexEntries GSI1 table))
    by (apply StronglySorted_merge_sort; apply _).
  split; [reflexivity|]. split; [reflexivity|].
  split; [exact Hsorted|].
  split; [apply merge_sort_Permutation|].
  intros status. split; [apply query_complete|]. split.
  - unfold query, queryEntries.
    pose proof (sorted_partition_by_sort status _ Hsorted) as Hq.
    assert (Hin : forall e, In e (filter (fun e => partition e = status)
                                    (indexEntries GSI1 table)) ->
                            fileURI (item e) = sort e).
    { intros e He. apply list_elem_of_In, list_elem_of_filter in He.
      destruct He as [_ He].
      unfold indexEntries in He. rewrite merge_sort_Permutation in He.
      apply list_elem_of_omap in He. destruct He as (it & _ & Hp).
      apply project_GSI1 in Hp. destruct Hp as (_ & Hu & <-).
      unfold fileURI. now rewrite Hu. }
    revert Hin Hq.
    generalize (filter (fun e => partition e = status)
                  (indexEntries GSI1 table)).
    intros l Hin Hq. induction Hq as [|x l Hs IH Hall]; [constructor|].
    rewrite fmap_cons. constructor.
    + apply IH. intros e He. apply Hin. now right.
    + apply List.Forall_forall. intros y Hy.
      apply in_map_iff in Hy. destruct Hy as (e & <- & He).
      rewrite List.Forall_forall in Hall.
      rewrite (Hin x (or_introl eq_refl)), (Hin e (or_intror He)).
      now apply Hall.
  - eexists _, _. split; [apply sorted_partition_segment, Hsorted|].
    split; apply List.Forall_forall; intros e He;
      apply list_elem_of_In, list_elem_of_filter in He; tauto.
Qed.

(** On the sample table the pending entries come back ordered by id. *)
Example query_pending_sample :
  fileURI <$> query GSI1 "PENDING" sampleTable
  = ["s3://in/a.pdf"; "s3://in/c.pdf"].
Proof. vm_compute. reflexivity. Qed.

End CacheIndexFacts.

(* ===================================================================== *)
(** * Properties of the ingestion state machine *)
(* ===================================================================== *)

Module PipelineFacts.
Import Pipeline.

(** ** The worker pool *)

(** A step of the pool keeps the number of tasks in flight within a
    ceiling that sets a limit. *)
Lemma pool_step_bound ceiling run p ev p' :
  0 < ceiling ->
  pool_step ceiling run p ev (Some p') ->
  length (inFlight p) <= ceiling ->
  length (inFlight p') <= ceiling.
Proof.
  intros Hc Hstep Hb. inversion Hstep; subst; simpl in *.
  - rewrite length_app. simpl. lia.
  - rewrite length_app in *. simpl in *. lia.
Qed.

Lemma dispatchedItems_app evs1 evs2 :
  dispatchedItems (evs1 ++ evs2) = dispatchedItems evs1 ++ dispatchedItems evs2.
Proof. unfold dispatchedItems. apply omap_app. Qed.

Lemma completedItems_app evs1 evs2 :
  completedItems (evs1 ++ evs2) = completedItems evs1 ++ completedItems evs2.
Proof. unfold completedItems. apply omap_app. Qed.

Lemma PoolInv_start w items : PoolInv w items items [] [] [].
Proof.
  apply (pool_inv w items items [] [] [] [] []); simpl; auto.
  unfold concurrencyCeiling. simpl. lia.
Qed.

Lemma PoolInv_step w items pend infl res evs ev pend' infl' res' :
  PoolInv w items pend infl res evs ->
  pool_step (maxConcurrency runFilesInParallelProps) (runTask w)
    {| pending := pend; inFlight := infl; written := res |} ev
    (Some {| pending := pend'; inFlight := infl'; written := res' |}) ->
  PoolInv w items pend' infl' res' (evs ++ [ev]).
Proof.
  intros [taken done Hitems Hperm Hres Hlen Hevs Hdisp Hcomp Hcount] Hstep.
  pose proof (pool_step_bound _ _ _ _ _ (Nat.lt_0_1 : 0 < 1) Hstep Hlen) as Hb.
  inversion Hstep; subst.
  - apply (pool_inv _ _ _ _ _ _ (dispatchedItems evs ++ [i])
             (completedItems evs)).
    + rewrite Hitems, <- app_assoc. apply Permutation_app_head.
      simpl. symmetry. apply Permutation_middle.
    + rewrite Hperm. now rewrite app_assoc.
    + exact Hres.
    + exact Hb.
    + apply Forall_app; split; [exact Hevs|]. repeat constructor.
    + now rewrite dispatchedItems_app.
    + rewrite completedItems_app. simpl. now rewrite app_nil_r.
    + rewrite !length_app. simpl. lia.
  - apply (pool_inv _ _ _ _ _ _ (dispatchedItems evs)
             (completedItems evs ++ [i])).
    + exact Hitems.
    + rewrite Hperm. rewrite <- !app_assoc. apply Permutation_app_head.
      simpl. symmetry. apply Permutation_middle.
    + apply Forall2_app; [exact Hres|]. repeat constructor. eauto.
    + exact Hb.
    + apply Forall_app; split; [exact Hevs|]. repeat constructor.
    + rewrite dispatchedItems_app. simpl. now rewrite app_nil_r.
    + now rewrite completedItems_app.
    + rewrite !length_app. simpl. lia.
Qed.

(** ** The invariant of an execution *)

Lemma step_Inv w c c' : Inv w c -> step w c c' -> Inv w c'.
Proof.
  intros HInv Hstep.
  destruct HInv; unfold initial, definition, inputValidationTask,
    vectorStoreManagementTask, ingestionChoice, runFilesInParallel,
    succeedTask in Hstep; inversion Hstep; subst.
  all: try (econstructor; eassumption).
  - (* the choice *)
    match goal with
    | Hc : evalCondition _ _ = Some _ |- _ => simpl in Hc; inversion Hc
    end.
    destruct (isValid p) eqn:Ev; simpl.
    + eapply inv_map; eassumption.
    + eapply inv_skip; eassumption.
  - match goal with
    | Hc : evalCondition _ _ = None |- _ => discriminate Hc
    end.
  - (* the items are read *)
    change prepared with (prepared ++ []).
    eapply inv_map_run; try eassumption. apply PoolInv_start.
  - (* a step of the pool *)
    change (Inv w {| control := MapRun runFilesInParallelProps succeedTask
                                  pend' infl';
                     data := Some p; results := res';
                     log := prepared ++ (evs ++ [ev]) |}).
    eapply inv_map_run; try eassumption.
    eapply PoolInv_step; eassumption.
  - (* a task fails *)
    match goal with
    | Hp : pool_step _ _ _ _ None |- _ => inversion Hp; subst
    end.
    change (Inv w {| control := Failed; data := Some p; results := res;
                     log := prepared ++ evs ++ [WorkerFailed i] |}).
    eapply inv_map_failed; try eassumption.
    apply in_or_app. right. now left.
Qed.

(** Every configuration of an execution has the shape [Inv]. *)
Lemma reachable_Inv w c : reachable w c -> Inv w c.
Proof.
  unfold reachable. revert c.
  apply (rtc_ind_r (Inv w) (initial definition)); [constructor|].
  intros y z _ Hstep Hy. exact (step_Inv w y z Hy Hstep).
Qed.

(** ** Runs *)

Lemma reachable_step w c c' : reachable w c -> step w c c' -> reachable w c'.
Proof. unfold reachable. intros H Hs. eapply rtc_r; eassumption. Qed.

Lemma run_validated w p :
  invoke w inputValidationFunction = Some p ->
  reachable w {| control := Enter vectorStoreManagementTask; data := Some p;
                 results := []; log := validated |}.
Proof.
  intros Hp. eapply reachable_step; [apply rtc_refl|].
  exact (step_invoke w _ inputValidationFunction SelectPayload _
           None [] [] p Hp).
Qed.

Lemma run_prepared w p q :
  invoke w inputValidationFunction = Some p ->
  invoke w vectorStoreManagementFunction = Some q ->
  reachable w {| control := Enter ingestionChoice; data := Some p;
                 results := []; log := prepared |}.
Proof.
  intros Hp Hq. eapply reachable_step; [exact (run_validated w p Hp)|].
  exact (step_invoke w _ vectorStoreManagementFunction DISCARD _
           (Some p) [] validated q Hq).
Qed.

Lemma run_chosen w p q :
  invoke w inputValidationFunction = Some p ->
  invoke w vectorStoreManagementFunction = Some q ->
  reachable w {| control := Enter (if isValid p
                                   then runFilesInParallel succeedTask
                                   else succeedTask);
                 data := Some p; results := []; log := prepared |}.
Proof.
  intros Hp Hq. eapply reachable_step; [exact (run_prepared w p q Hp Hq)|].
  pose proof (step_choice w "Are there any documents that need to be ingested?"
                (booleanEquals "$.Payload.isValid" false)
                succeedTask (runFilesInParallel succeedTask)
                (Some p) [] prepared (Bool.eqb (isValid p) false)
                eq_refl) as Hs.
  destruct (isValid p); exact Hs.
Qed.

Lemma run_skipped w p q :
  invoke w inputValidationFunction = Some p ->
  invoke w vectorStoreManagementFunction = Some q ->
  isValid p = false ->
  reachable w {| control := Succeeded; data := Some p; results := [];
                 log := prepared ++ [ExecutionSucceeded] |}.
Proof.
  intros Hp Hq Hv. pose proof (run_chosen w p q Hp Hq) as Hr.
  rewrite Hv in Hr. eapply reachable_step; [exact Hr|]. constructor.
Qed.

Lemma run_map_started w p q items :
  invoke w inputValidationFunction = Some p ->
  invoke w vectorStoreManagementFunction = Some q ->
  isValid p = true ->
  readItems w (manifestKey w) = Some items ->
  reachable w {| control := MapRun runFilesInParallelProps succeedTask items [];
                 data := Some p; results := []; log := prepared |}.
Proof.
  intros Hp Hq Hv Hi. pose proof (run_chosen w p q Hp Hq) as Hr.
  rewrite Hv in Hr. eapply reachable_step; [exact Hr|].
  now constructor.
Qed.

(** The pool drains: when every task ends well, the run over the pending
    items ends with nothing pending and nothing in flight. *)
Lemma pool_drains w d items res l :
  Forall (fun i => is_Some (runTask w i)) items ->
  rtc (step w)
    {| control := MapRun runFilesInParallelProps succeedTask items [];
       data := d; results := res; log := l |}
    {| control := MapRun runFilesInParallelProps succeedTask [] [];
       data := d; results := res ++ sequentialResults w items;
       log := l ++ sequentialEvents items |}.
Proof.
  intros Hall. revert res l.
  induction Hall as [|i items [n Hn] _ IH]; intros res l.
  - simpl. rewrite !app_nil_r. apply rtc_refl.
  - assert (Hres : res ++ sequentialResults w (i :: items)
                   = (res ++ [resultOf i n]) ++ sequentialResults w items).
    { unfold sequentialResults. rewrite <- app_assoc. f_equal.
      change (omap ?f (i :: items)) with
        (match f i with Some y => y :: omap f items | None => omap f items end).
      cbv beta. now rewrite Hn. }
    assert (Hlog : l ++ sequentialEvents (i :: items)
                   = ((l ++ [Dispatched i]) ++ [Completed i])
                       ++ sequentialEvents items)
      by now rewrite <- !app_assoc.
    rewrite Hres, Hlog.
    eapply rtc_l.
    { apply step_map_pool.
      apply (pool_dispatch 1 (runTask w) i [] items [] res).
      right. simpl. lia. }
    eapply rtc_l.
    { apply step_map_pool.
      exact (pool_complete 1 (runTask w) i n items [] [] res Hn). }
    apply IH.
Qed.

(** A batch whose steps all end well reaches the success state. *)
Lemma run_completes w p q items :
  invoke w inputValidationFunction = Some p ->
  invoke w vectorStoreManagementFunction = Some q ->
  isValid p = true ->
  readItems w (manifestKey w) = Some items ->
  Forall (fun i => is_Some (runTask w i)) items ->
  reachable w {| control := Succeeded; data := Some p;
                 results := sequentialResults w items;
                 log := (prepared ++ sequentialEvents items)
                          ++ [ExecutionSucceeded] |}.
Proof.
  intros Hp Hq Hv Hi Hall.
  eapply reachable_step; [|apply step_succeed].
  eapply reachable_step; [|apply step_map_done].
  unfold reachable. etrans; [exact (run_map_started w p q items Hp Hq Hv Hi)|].
  exact (pool_drains w (Some p) items [] prepared Hall).
Qed.

(** ** Reading the invariant *)

Lemma in_dispatchedItems i evs :
  In (Dispatched i) evs <-> In i (dispatchedItems evs).
Proof.
  unfold dispatchedItems. rewrite <- !list_elem_of_In, list_elem_of_omap.
  split.
  - intros H. exists (Dispatched i). now split.
  - intros [e [He Hi]]. destruct e; try discriminate.
    now inversion Hi; subst.
Qed.

Lemma PoolInv_dispatched w items pend infl res evs i :
  PoolInv w items pend infl res evs -> In (Dispatched i) evs -> In i items.
Proof.
  intros [taken done Hitems _ _ _ _ Hdisp _ _] Hin.
  apply in_dispatchedItems in Hin. rewrite Hdisp in Hin.
  eapply Permutation_in; [symmetry; exact Hitems|].
  apply in_or_app. now left.
Qed.

(** At the end of the pool the tasks that have ended well are those of
    the items of the manifest, one for each item, and the results are
    theirs, one for one. *)
Lemma PoolInv_end w items res evs :
  PoolInv w items [] [] res evs ->
  Permutation items (completedItems evs) /\
  Forall2 (fun i r => FileURI r = uri i /\
                      runTask w i = Some (EmbeddingsGenerated r))
          (completedItems evs) res.
Proof.
  intros [taken done Hitems Hperm Hres _ _ _ Hcomp _].
  rewrite !app_nil_r in *. subst done. split.
  - now rewrite Hitems.
  - eapply Forall2_impl; [exact Hres|].
    intros i r [n [Hn ->]]. now split.
Qed.

Lemma PoolInv_empty w pend infl res evs :
  PoolInv w [] pend infl res evs ->
  pend = [] /\ infl = [] /\ res = [] /\ evs = [].
Proof.
  intros [taken done Hitems Hperm Hres _ _ _ _ Hcount].
  apply Permutation_nil in Hitems. apply app_eq_nil in Hitems.
  destruct Hitems as [-> ->].
  apply Permutation_nil in Hperm. apply app_eq_nil in Hperm.
  destruct Hperm as [-> ->]. inversion Hres; subst.
  simpl in Hcount. destruct evs; [auto|discriminate].
Qed.

Ltac split_in :=
  repeat match goal with
         | H : In _ (_ ++ _) |- _ => apply in_app_or in H
         | H : In _ (_ :: _) |- _ => destruct H
         | H : In _ [] |- _ => destruct H
         | H : _ \/ _ |- _ => destruct H
         | H : False |- _ => destruct H
         | H : _ = Dispatched _ |- _ => discriminate H
         | H : _ = ExecutionSucceeded |- _ => discriminate H
         | H : _ = TaskSucceeded _ |- _ => try discriminate H; clear H
         | H : _ = TaskFailed _ |- _ => try discriminate H; clear H
         end.

Ltac no_dispatch :=
  let i := fresh "i" in
  let Hin := fresh "Hin" in
  unfold noDispatch, validated, prepared; intros i Hin; split_in.

(** ** The concurrency ceiling *)

(** C1. The ceiling of the fan-out is one configured integer, 1 in this
    deployment and so within 1 to 3, and in every configuration of every
    execution the number of worker tasks in flight is at most the
    ceiling. *)
Theorem in_flight_within_ceiling :
  concurrencyCeiling = 1 /\
  1 <= concurrencyCeiling <= 3 /\
  forall w c, reachable w c -> inFlightCount c <= concurrencyCeiling.
Proof.
  split; [reflexivity|]. split; [unfold concurrencyCeiling; simpl; lia|].
  intros w c H. apply reachable_Inv in H.
  destruct H; unfold inFlightCount; simpl; try lia.
  match goal with Hp : PoolInv _ _ _ _ _ _ |- _ => destruct Hp end.
  assumption.
Qed.

(** With two items in the manifest, one task is in flight after the first
    dispatch, and the second item waits. *)
Lemma in_flight_within_ceiling_witness :
  inFlightCount
    {| control := MapRun runFilesInParallelProps succeedTask
                         [item "s3://in/b.pdf"] [item "s3://in/a.pdf"];
       data := Some {| isValid := true |}; results := [];
       log := prepared ++ [Dispatched (item "s3://in/a.pdf")] |}
  <= concurrencyCeiling.
Proof.
  apply (proj2 (proj2 in_flight_within_ceiling)
           (world true [item "s3://in/a.pdf"; item "s3://in/b.pdf"])).
  eapply reachable_step.
  - apply (run_map_started _ {| isValid := true |} {| isValid := true |});
      reflexivity.
  - apply step_map_pool.
    apply (pool_dispatch 1 _ (item "s3://in/a.pdf")
             [] [item "s3://in/b.pdf"] []).
    right. simpl. lia.
Defined.

(** ** From bookkeeping to fan-out *)

(** The runs that dispatch nothing, front to back. *)
Lemma no_fan_out_runs (w : World) (p q : Payload) :
  invoke w inputValidationFunction = Some p ->
  invoke w vectorStoreManagementFunction = Some q ->
  isValid p = false \/ readItems w (manifestKey w) = Some [] ->
  forall c, reachable w c ->
            noDispatch (log c) /\ control c <> Failed /\ results c = [] /\
            (control c = Succeeded -> log c = prepared ++ [ExecutionSucceeded]).
Proof.
  intros Hp Hq Hno c Hc. apply reachable_Inv in Hc.
  destruct Hc; simpl; try congruence;
    try match goal with
        | Hpool : PoolInv _ ?items _ _ _ _ |- _ =>
            assert (items = []) by (destruct Hno; congruence); subst;
            destruct (PoolInv_empty _ _ _ _ _ Hpool) as (? & ? & ? & ?); subst
        end;
    try (destruct Hno; congruence);
    try match goal with Hin : In _ [] |- _ => destruct Hin end;
    (split; [no_dispatch|split; [discriminate|split; [reflexivity|]]]);
    first [discriminate|reflexivity].
Qed.

(** C2. Fan-out is the dispatch of worker tasks.  After a bookkeeping
    that ended well, a task is dispatched only if [isValid = true] and
    the manifest is not empty (and the task is that of an item of the
    manifest); in every other case, [isValid = false] or an empty
    manifest, the execution goes from the bookkeeping straight to the
    success state: no task is dispatched, no execution fails, and the
    events of the finished batch are the validation, the bookkeeping and
    the success.  With [isValid = true] and an item in the manifest a
    task is dispatched. *)
Theorem fan_out_only_if_valid_and_nonempty (w : World) (p q : Payload) :
  invoke w inputValidationFunction = Some p ->
  invoke w vectorStoreManagementFunction = Some q ->
  (forall c i,
      reachable w c -> In (Dispatched i) (log c) ->
      isValid p = true /\
      exists items, readItems w (manifestKey w) = Some items /\
                    items <> [] /\ In i items) /\
  (isValid p = false \/ readItems w (manifestKey w) = Some [] ->
   reachable w {| control := Succeeded; data := Some p; results := [];
                  log := prepared ++ [ExecutionSucceeded] |} /\
   (forall c, reachable w c -> noDispatch (log c) /\ control c <> Failed) /\
   (forall c, reachable w c -> control c = Succeeded ->
              log c = prepared ++ [ExecutionSucceeded])) /\
  (isValid p = true ->
   forall i rest,
     readItems w (manifestKey w) = Some (i :: rest) ->
     exists c, reachable w c /\ stageOf (control c) = FanningOut /\
               log c = prepared ++ [Dispatched i]).
Proof.
  intros Hp Hq. split; [|split].
  - intros c i Hc Hin. apply reachable_Inv in Hc.
    destruct Hc; simpl in Hin; try (now split_in);
      (split; [congruence|]);
      match goal with
      | Hi : readItems w (manifestKey w) = Some ?items,
        Hpool : PoolInv _ ?items _ _ _ _ |- _ =>
          exists items; split; [exact Hi|];
          assert (Hitem : In i items)
      end;
      try (split; [intros ->; destruct Hitem|exact Hitem]);
      match goal with
      | Hpool : PoolInv _ _ _ _ _ ?evs |- _ =>
          apply (PoolInv_dispatched _ _ _ _ _ evs _ Hpool)
      end;
      unfold prepared in Hin; simpl in Hin;
      repeat (destruct Hin as [Hin|Hin]; [discriminate Hin|]);
      try exact Hin;
      apply in_app_or in Hin; destruct Hin as [Hin|[Hin|[]]];
      first [exact Hin|discriminate Hin].
  - intros Hno. split; [|split].
    + destruct Hno as [Hv|Hempty].
      * exact (run_skipped w p q Hp Hq Hv).
      * destruct (isValid p) eqn:Hv.
        -- exact (run_completes w p q [] Hp Hq Hv Hempty (List.Forall_nil _)).
        -- exact (run_skipped w p q Hp Hq Hv).
    + intros c Hc.
      destruct (no_fan_out_runs w p q Hp Hq Hno c Hc) as (H1 & H2 & _).
      now split.
    + intros c Hc.
      exact (proj2 (proj2 (proj2 (no_fan_out_runs w p q Hp Hq Hno c Hc)))).
  - intros Hv i rest Hi. eexists. split; [|split].
    + eapply reachable_step.
      * exact (run_map_started w p q (i :: rest) Hp Hq Hv Hi).
      * apply step_map_pool.
        apply (pool_dispatch 1 (runTask w) i [] rest [] []).
        right. simpl. lia.
    + reflexivity.
    + reflexivity.
Qed.

(** A valid batch of one item dispatches its task; an invalid batch and a
    valid batch without items go straight to the success state. *)
Lemma fan_out_only_if_valid_and_nonempty_witness :
  (exists c, reachable (world true [item "s3://in/a.pdf"]) c /\
             stageOf (control c) = FanningOut /\
             log c = prepared ++ [Dispatched (item "s3://in/a.pdf")]) /\
  reachable (world false [item "s3://in/a.pdf"])
    {| control := Succeeded; data := Some {| isValid := false |};
       results := []; log := prepared ++ [ExecutionSucceeded] |} /\
  reachable (world true [])
    {| control := Succeeded; data := Some {| isValid := true |};
       results := []; log := prepared ++ [ExecutionSucceeded] |}.
Proof.
  split; [|split].
  - destruct (fan_out_only_if_valid_and_nonempty
                (world true [item "s3://in/a.pdf"])
                {| isValid := true |} {| isValid := true |} eq_refl eq_refl)
      as (_ & _ & H3).
    exact (H3 eq_refl (item "s3://in/a.pdf") [] eq_refl).
  - destruct (fan_out_only_if_valid_and_nonempty
                (world false [item "s3://in/a.pdf"])
                {| isValid := false |} {| isValid := false |} eq_refl eq_refl)
      as (_ & H2 & _).
    exact (proj1 (H2 (or_introl eq_refl))).
  - destruct (fan_out_only_if_valid_and_nonempty
                (world true [])
                {| isValid := true |} {| isValid := true |} eq_refl eq_refl)
      as (_ & H2 & _).
    exact (proj1 (H2 (or_intror eq_refl))).
Defined.

(** ** The result manifest *)

Lemma append_cons c (a b : string) :
  (String c a ++ b)%string = String c (a ++ b)%string.
Proof. reflexivity. Qed.

Lemma append_length (a b : string) :
  String.length (a ++ b)%string = String.length a + String.length b.
Proof.
  induction a as [|c a IH]; [reflexivity|].
  rewrite append_cons. simpl. now rewrite IH.
Qed.

Lemma append_inj_r (s a b : string) : (a ++ s = b ++ s)%string -> a = b.
Proof.
  revert b. induction a as [|c a IH]; intros [|d b] H.
  - reflexivity.
  - apply (f_equal String.length) in H.
    rewrite !append_length in H. simpl in H. lia.
  - apply (f_equal String.length) in H.
    rewrite !append_length in H. simpl in H. lia.
  - rewrite !append_cons in H. injection H as -> H. f_equal. now apply IH.
Qed.


(** The results of a finished batch. *)
Lemma finished_results (w : World) (c : Config) :
  reachable w c ->
  control c = Succeeded ->
  exists p,
    invoke w inputValidationFunction = Some p /\
    if isValid p
    then exists items,
        readItems w (manifestKey w) = Some items /\
        Permutation items (completedItems (log c)) /\
        Forall2 (fun i r => FileURI r = uri i /\
                            runTask w i = Some (EmbeddingsGenerated r))
                (completedItems (log c)) (results c)
    else results c = [] /\ noDispatch (log c).
Proof.
  intros Hc Hctl. apply reachable_Inv in Hc.
  destruct Hc; simpl in Hctl; try discriminate Hctl;
    match goal with
    | Hp : invoke w inputValidationFunction = Some ?p,
      Hv : isValid ?p = _ |- _ =>
        exists p; split; [exact Hp|]; rewrite Hv
    end.
  - split; [reflexivity|]. simpl. no_dispatch.
  - match goal with
    | Hp : PoolInv _ _ _ _ _ _ |- _ =>
        destruct (PoolInv_end _ _ _ _ Hp) as [Hperm Hres]
    end.
    exists items. split; [assumption|]. simpl.
    rewrite !completedItems_app. simpl. rewrite app_nil_r.
    now split.
Qed.

(** In a finished batch the uris of the records are those of the items,
    each as often as the manifest has it. *)
Corollary result_uris w c p items :
  reachable w c -> control c = Succeeded ->
  invoke w inputValidationFunction = Some p -> isValid p = true ->
  readItems w (manifestKey w) = Some items ->
  Permutation (map FileURI (results c)) (map uri items).
Proof.
  intros Hc Hctl Hp Hv Hi.
  destruct (finished_results w c Hc Hctl) as [p' [Hp' H]].
  assert (p' = p) by congruence. subst p'. rewrite Hv in H.
  destruct H as (items' & Hi' & Hperm & Hres).
  assert (items' = items) by congruence. subst items'.
  rewrite Hperm. clear Hperm.
  induction Hres as [|i r done res [Hu _] _ IH]; [constructor|].
  simpl. rewrite Hu. now constructor.
Qed.



(** ** The order of the stages *)

(** C4. Every execution goes through the stages in the order validate,
    bookkeep, fan-out (if any), finalize: a worker task is dispatched only
    after the validation and then the bookkeeping have succeeded, the
    bookkeeping is invoked only after the validation has succeeded, the
    success is the last event, and when the bookkeeping fails no task is
    dispatched, the fan-out state is not entered and the execution does
    not succeed. *)
Theorem stages_in_order (w : World) (c : Config) :
  reachable w c ->
  (forall i, In (Dispatched i) (log c) ->
             exists rest, log c = prepared ++ rest) /\
  (In (TaskSucceeded vectorStoreManagementFunction) (log c) \/
   In (TaskFailed vectorStoreManagementFunction) (log c) ->
   exists rest, log c = validated ++ rest) /\
  (In ExecutionSucceeded (log c) ->
   exists evs, log c = prepared ++ evs ++ [ExecutionSucceeded] /\
               Forall isPoolEvent evs) /\
  (stageOf (control c) = FanningOut \/ control c = Succeeded ->
   exists rest, log c = prepared ++ rest) /\
  (invoke w vectorStoreManagementFunction = None ->
   noDispatch (log c) /\ stageOf (control c) <> FanningOut /\
   control c <> Succeeded).
Proof.
  intros Hc. apply reachable_Inv in Hc.
  split; [|split; [|split; [|split]]].
  - intros i Hin. destruct Hc; simpl in *; try (now split_in); eauto.
  - intros Hin.
    destruct Hc; simpl in *; try (now split_in);
      try (now eexists; unfold validated; simpl; reflexivity).
  - intros Hin. destruct Hc; simpl in Hin |- *; try (now split_in).
    + exists []. split; [reflexivity|constructor].
    + exfalso.
      match goal with Hp : PoolInv _ _ _ _ _ _ |- _ => destruct Hp end.
      match goal with
      | Hf : Forall isPoolEvent ?evs |- _ =>
          rewrite List.Forall_forall in Hf;
          destruct Hin as [Hin|[Hin|Hin]]; try discriminate Hin;
          exact (Hf _ Hin)
      end.
    + exfalso.
      match goal with Hp : PoolInv _ _ _ _ _ _ |- _ => destruct Hp end.
      match goal with
      | Hf : Forall isPoolEvent ?evs |- _ =>
          rewrite List.Forall_forall in Hf;
          destruct Hin as [Hin|[Hin|Hin]]; try discriminate Hin;
          apply in_app_or in Hin; destruct Hin as [Hin|[Hin|[]]];
          [exact (Hf _ Hin)|discriminate Hin]
      end.
    + exfalso.
      match goal with Hp : PoolInv _ _ _ _ _ _ |- _ => destruct Hp end.
      match goal with
      | Hf : Forall isPoolEvent ?evs |- _ =>
          rewrite List.Forall_forall in Hf;
          destruct Hin as [Hin|[Hin|Hin]]; try discriminate Hin;
          exact (Hf _ Hin)
      end.
    + exists evs. split; [reflexivity|].
      match goal with Hp : PoolInv _ _ _ _ _ _ |- _ => now destruct Hp end.
  - intros Hst.
    destruct Hc; simpl in *;
      try (destruct Hst as [Hst|Hst]; discriminate Hst); eauto.
  - intros Hfail.
    destruct Hc; simpl; try congruence;
      (split; [no_dispatch|split; discriminate]).
Qed.

(** After a first dispatch the log starts with the validation and the
    bookkeeping; a batch whose bookkeeping fails dispatches nothing. *)
Lemma stages_in_order_witness :
  (exists rest,
      prepared ++ [Dispatched (item "s3://in/a.pdf")] = prepared ++ rest) /\
  noDispatch (validated ++ [TaskFailed vectorStoreManagementFunction]).
Proof.
  split.
  - assert (Hc : reachable (world true [item "s3://in/a.pdf"])
                   {| control := MapRun runFilesInParallelProps succeedTask
                                        [] [item "s3://in/a.pdf"];
                      data := Some {| isValid := true |}; results := [];
                      log := prepared ++ [Dispatched (item "s3://in/a.pdf")] |}).
    { eapply reachable_step.
      - apply (run_map_started _ {| isValid := true |} {| isValid := true |});
          reflexivity.
      - apply step_map_pool.
        apply (pool_dispatch 1 _ (item "s3://in/a.pdf") [] [] []).
        right. simpl. lia. }
    apply (proj1 (stages_in_order _ _ Hc) (item "s3://in/a.pdf")).
    simpl. auto.
  - assert (Hc : reachable worldBookkeepingFails
                   {| control := Failed; data := Some {| isValid := true |};
                      results := [];
                      log := validated
                               ++ [TaskFailed vectorStoreManagementFunction] |}).
    { eapply reachable_step.
      - apply (run_validated worldBookkeepingFails {| isValid := true |}).
        reflexivity.
      - apply step_invoke_failed. reflexivity. }
    destruct (stages_in_order _ _ Hc) as (_ & _ & _ & _ & H5).
    exact (proj1 (H5 eq_refl)).
Defined.

(** ** The empty manifest *)




End PipelineFacts.

(* ===================================================================== *)
(** * Properties of the runs of the ingestion state machine *)
(* ===================================================================== *)

Module PipelineRunFacts.
Import Pipeline PipelineRuns.

(** ** The length of an execution *)

Lemma stepsOf_pos w s : 0 < stepsOf w s.
Proof. destruct s; simpl; lia. Qed.

(** Every step uses up one of the steps left. *)
Lemma step_decreases w c c' :
  step w c c' -> stepsLeft w (control c') < stepsLeft w (control c).
Proof.
  intros Hstep. inversion Hstep; subst; simpl; try lia;
    try (match goal with |- context [stepsOf w ?s] =>
           pose proof (stepsOf_pos w s) end; lia).
  - destruct b; lia.
  - unfold itemsOf.
    match goal with H : readItems _ _ = Some _ |- _ => rewrite H end. lia.
  - match goal with H : pool_step _ _ _ _ _ |- _ => inversion H; subst end;
      rewrite ?length_app; simpl; lia.
Qed.

Lemma nsteps_stepsLeft w n c c' :
  nsteps (step w) n c c' ->
  n + stepsLeft w (control c') <= stepsLeft w (control c).
Proof.
  induction 1 as [|n x y z Hstep _ IH]; [lia|].
  apply step_decreases in Hstep. lia.
Qed.

(** An execution of the ingestion state machine takes at most six steps
    and two more for each item of its manifest. *)
Theorem execution_bounded (w : World) (n : nat) (c : Config) :
  nsteps (step w) n (initial definition) c ->
  n <= 6 + 2 * length (itemsOf w runFilesInParallelProps).
Proof.
  intros Hrun. apply nsteps_stepsLeft in Hrun. simpl in Hrun. lia.
Qed.

(** The batch of an empty manifest takes the six steps. *)
Lemma execution_bounded_witness :
  nsteps (step (world true [])) 6 (initial definition)
    {| control := Succeeded; data := Some {| isValid := true |};
       results := []; log := prepared ++ [ExecutionSucceeded] |} /\
  6 <= 6 + 2 * length (itemsOf (world true []) runFilesInParallelProps).
Proof.
  assert (Hrun : nsteps (step (world true [])) 6 (initial definition)
            {| control := Succeeded; data := Some {| isValid := true |};
               results := []; log := prepared ++ [ExecutionSucceeded] |}).
  { eapply nsteps_l;
      [apply (step_invoke _ _ _ _ _ _ _ _ {| isValid := true |}); reflexivity|].
    eapply nsteps_l;
      [apply (step_invoke _ _ _ _ _ _ _ _ {| isValid := true |}); reflexivity|].
    eapply nsteps_l; [apply (step_choice _ _ _ _ _ _ _ _ false); reflexivity|].
    eapply nsteps_l; [apply (step_map_read _ _ _ _ _ _ _ []); reflexivity|].
    eapply nsteps_l; [apply step_map_done|].
    eapply nsteps_l; [apply step_succeed|].
    apply nsteps_O. }
  split; [exact Hrun|exact (execution_bounded _ _ _ Hrun)].
Defined.

(** ** Where an execution reads and writes *)

(** Two executions read their items under different keys, and no
    execution reads its items at or under a place where an execution
    writes its results. *)
Theorem manifests_apart_from_results (name1 name2 : string) :
  (itemReaderKey runFilesInParallelProps name1
   = itemReaderKey runFilesInParallelProps name2 -> name1 = name2) /\
  (forall suffix : string,
      itemReaderKey runFilesInParallelProps name1
      <> (resultLocation name2 ++ suffix)%string).
Proof.
  split.
  - cbv [itemReaderKey runFilesInParallelProps]. intros H.
    apply String.app_inj in H.
    exact (PipelineFacts.append_inj_r "/config.json" name1 name2 H).
  - intros suffix H. cbv in H. discriminate H.
Qed.

End PipelineRunFacts.

(* ===================================================================== *)
(** * Properties of the change detection *)
(* ===================================================================== *)

Module ChangeDetectionFacts.
Import Pipeline ChangeDetection.

(** ** The notifications *)

(** Every removal event of the bucket invokes the cache update function,
    and so does every creation event. *)
Lemma removal_invokes_cache_update detail key tag :
  invoked {| eventName := String.append "s3:ObjectRemoved:" detail;
             objectKey := key; eTag := tag |} = [cacheUpdateFunction].
Proof. reflexivity. Qed.

Lemma creation_invokes_cache_update detail key tag :
  invoked {| eventName := String.append "s3:ObjectCreated:" detail;
             objectKey := key; eTag := tag |} = [cacheUpdateFunction].
Proof. reflexivity. Qed.

(** ** The cache operations, entry by entry *)








(** ** The manifest *)






(** ** The fan-out *)







(** ** Deletion completeness *)







(** An unchanged corpus: the validation of section 4.2 answers that the
    batch is valid, with an empty manifest. *)
Example unchanged_corpus_valid_and_empty :
  let v := validate 5 [("s3://in/a.pdf", "f1"); ("s3://in/b.pdf", "f2")]
                    sampleCache in
  valid v = true /\ manifest v = [].
Proof. vm_compute. split; reflexivity. Qed.

End ChangeDetectionFacts.

(* ===================================================================== *)
(** * More properties of the chat front end *)
(* ===================================================================== *)

Lemma startsWith_spec p s :
  startsWith p s = true <-> exists r, s = (p ++ r)%string.
Proof.
  revert s. induction p as [|c p IH]; intros s.
  - split; [intros _; now exists s|reflexivity].
  - destruct s as [|d s]; cbn [startsWith].
    + split; [discriminate|intros [r Hr]; discriminate Hr].
    + rewrite andb_true_iff, IH. split.
      * intros [Hc [r ->]]. apply Ascii.eqb_eq in Hc. subst. now exists r.
      * intros [r Hr]. change (String c p ++ r)%string
          with (String c (p ++ r)%string) in Hr.
        inversion Hr; subst. split; [apply Ascii.eqb_refl|now exists r].
Qed.

Lemma assign_labels {V} label (value : V) (m : list (string * V)) :
  property label m <> None ->
  map fst (assign label value m) = map fst m.
Proof.
  induction m as [|[l v] m IH]; intros H; [now contradiction H|].
  simpl in *. destruct (String.eqb l label); [reflexivity|].
  simpl. f_equal. now apply IH.
Qed.

Lemma assign_other {V} label (value : V) label' (m : list (string * V)) :
  label' <> label ->
  property label' (assign label value m) = property label' m.
Proof.
  intros Hne. induction m as [|[l v] m IH]; simpl.
  - destruct (String.eqb_spec label label'); [congruence|reflexivity].
  - destruct (String.eqb_spec l label) as [->|Hl]; simpl.
    + destruct (String.eqb_spec label label'); [congruence|reflexivity].
    + now rewrite IH.
Qed.

Lemma assign_same {V} label (value : V) (m : list (string * V)) :
  property label (assign label value m) = Some value.
Proof.
  induction m as [|[l v] m IH]; simpl.
  - now rewrite String.eqb_refl.
  - destruct (String.eqb_spec l label) as [->|Hl]; simpl.
    + now rewrite String.eqb_refl.
    + destruct (String.eqb_spec l label); [contradiction|exact IH].
Qed.

Module MessageViewFacts.
Import Message MessageView.

(** ** Strings *)

Lemma append_head c (p x : string) :
  (String c p ++ x)%string = String c (p ++ x)%string.
Proof. reflexivity. Qed.

Lemma substring_all (s : string) : String.substring 0 (String.length s) s = s.
Proof. induction s as [|c s IH]; simpl; [reflexivity|now rewrite IH]. Qed.

Lemma to_uint_nonnil n : Nat.to_uint n <> Decimal.Nil.
Proof.
  rewrite <- (DecimalNat.Unsigned.of_to n) at 1.
  rewrite DecimalNat.Unsigned.to_of. apply DecimalFacts.unorm_nonnil.
Qed.

Lemma readNat_natToString n : readNat (natToString n) = Some n.
Proof.
  unfold readNat, natToString.
  rewrite NilZero.usu by apply to_uint_nonnil.
  simpl. now rewrite DecimalNat.Unsigned.of_to.
Qed.

Lemma natToString_inj n n' : natToString n = natToString n' -> n = n'.
Proof.
  intros H. apply (f_equal readNat) in H.
  rewrite !readNat_natToString in H. congruence.
Qed.

(** ** The matches of the patterns *)

Lemma many_allOf cls s m r : many cls s = (m, r) -> allOf cls m = true.
Proof.
  revert m r. induction s as [|c s IH]; intros m r H; simpl in H.
  - now inversion H.
  - destruct (cls c) eqn:Ec.
    + destruct (many cls s) as [m' r'] eqn:E. inversion H; subst.
      simpl. rewrite Ec. simpl. eapply IH. reflexivity.
    + now inversion H.
Qed.

(** A match of the global loop is a match of the pattern at some place. *)
Lemma execAll_matches pattern s i skip m :
  In m (execAll pattern s i skip) ->
  exists s', pattern s' = Some (matchLength m, group1 m).
Proof.
  revert i skip. induction s as [|c s IH]; intros i skip H; [destruct H|].
  simpl in H. destruct skip as [|k]; [|eauto].
  destruct (pattern (String c s)) as [[len cap]|] eqn:E; [|eauto].
  destruct H as [<-|H]; [|eauto]. exists (String c s). exact E.
Qed.

Lemma lit_opening p s r :
  lit (String "(" p) s = Some r -> exists s', s = String "(" s'.
Proof.
  cbn [lit]. destruct s as [|d s]; [discriminate|].
  destruct (Ascii.eqb_spec "("%char d) as [<-|]; [eauto|discriminate].
Qed.

Lemma execAll_none pattern s i skip :
  (forall s', pattern s' <> None -> exists r, s' = String "(" r) ->
  noOpening s = true ->
  execAll pattern s i skip = [].
Proof.
  intros Hp. revert i skip.
  induction s as [|c s IH]; intros i skip Hs; [reflexivity|].
  cbn [noOpening] in Hs. apply andb_prop in Hs. destruct Hs as [Hc Hs].
  cbn [execAll]. destruct skip as [|k]; [|now apply IH].
  destruct (pattern (String c s)) as [[len cap]|] eqn:E; [|now apply IH].
  exfalso. destruct (Hp (String c s)) as [r Hr]; [congruence|].
  inversion Hr; subst. discriminate Hc.
Qed.

Lemma timestampPattern_opening s :
  timestampPattern s <> None -> exists r, s = String "(" r.
Proof.
  unfold timestampPattern. intros H.
  destruct (lit "(!?#Timestamp:" s) as [r|] eqn:E; [|contradiction].
  eapply lit_opening. exact E.
Qed.

Lemma mediaPattern_opening tag s :
  mediaPattern tag s <> None -> exists r, s = String "(" r.
Proof.
  unfold mediaPattern. intros H.
  destruct (lit ("(!?#" ++ tag ++ ":") s) as [r|] eqn:E; [|contradiction].
  eapply lit_opening. exact E.
Qed.

(** The capture of a media pattern: [https://] and then one character or
    more, none of them a closing parenthesis. *)
Lemma mediaPattern_capture tag s len cap :
  mediaPattern tag s = Some (len, cap) ->
  exists u, cap = ("https://" ++ u)%string /\ u <> "" /\
            allOf notParen u = true.
Proof.
  unfold mediaPattern. intros H.
  destruct (lit ("(!?#" ++ tag ++ ":") s) as [r1|]; [|discriminate].
  destruct (lit "https://" r1) as [r2|]; [|discriminate].
  destruct (many notParen r2) as [u r3] eqn:E.
  destruct u as [|c u]; [discriminate|].
  destruct r3 as [|d r3]; [discriminate|].
  destruct (Ascii.eqb_spec d ")"%char) as [->|Hd].
  - inversion H; subst. exists (String c u).
    split; [reflexivity|]. split; [discriminate|]. eapply many_allOf. exact E.
  - exfalso. revert H.
    destruct d as [[] [] [] [] [] [] [] []]; try discriminate.
    now contradiction Hd.
Qed.

(** The capture of the timestamp pattern: one digit or more, then
    possibly a dot, then digits. *)
Lemma timestampPattern_capture s len cap :
  timestampPattern s = Some (len, cap) ->
  exists ds dot fs,
    cap = (ds ++ dot ++ fs)%string /\ ds <> "" /\
    allOf isDigit ds = true /\ (dot = "" \/ dot = ".") /\
    allOf isDigit fs = true.
Proof.
  unfold timestampPattern. intros H.
  destruct (lit "(!?#Timestamp:" s) as [r1|]; [|discriminate].
  destruct (many isDigit r1) as [ds r2] eqn:E1.
  destruct ds as [|c ds]; [discriminate|].
  assert (Hdot : exists dot r3,
             (dot = "" \/ dot = ".") /\
             match r2 with
             | String "." r => (".", r)
             | _ => ("", r2)
             end = (dot, r3)).
  { destruct r2 as [|d r2]; [now exists "", ""; auto|].
    destruct (Ascii.eqb_spec d "."%char) as [->|Hd].
    - exists ".", r2. auto.
    - exists "", (String d r2). split; [auto|].
      destruct d as [[] [] [] [] [] [] [] []]; try reflexivity.
      now contradiction Hd. }
  destruct Hdot as (dot & r3 & Hd & Hr). rewrite Hr in H.
  destruct (many isDigit r3) as [fs r4] eqn:E2.
  destruct r4 as [|d r4]; [discriminate|].
  destruct (Ascii.eqb_spec d ")"%char) as [->|Hp].
  - inversion H; subst. exists (String c ds), dot, fs.
    split; [reflexivity|]. split; [discriminate|].
    split; [eapply many_allOf; exact E1|].
    split; [exact Hd|]. eapply many_allOf. exact E2.
  - exfalso. revert H.
    destruct d as [[] [] [] [] [] [] [] []]; try discriminate.
    now contradiction Hp.
Qed.

Section Parse.

Variable number : Type.
Variable parseFloat : string -> number.

Abbreviation parseMessageContent :=
  (Message.parseMessageContent number parseFloat).
Abbreviation allMatches := (MessageView.allMatches number parseFloat).
Abbreviation lastTimestamp := (Message.lastTimestamp number parseFloat).
Abbreviation MatchEntry := (Message.MatchEntry number).
Abbreviation ReactNode := (Message.ReactNode number).

Abbreviation timestampEntry := (MessageView.timestampEntry number).

Lemma timestampLoop_entries ms ts all :
  snd (fold_left (timestampStep number parseFloat) ms (ts, all))
  = all ++ map timestampEntry ms.
Proof.
  revert ts all. induction ms as [|m ms IH]; intros ts all.
  - simpl. now rewrite app_nil_r.
  - cbn [fold_left map]. unfold timestampStep at 2. rewrite IH.
    now rewrite <- app_assoc.
Qed.

Lemma allMatches_eq text :
  allMatches text
  = map timestampEntry (execAll timestampPattern text 0 0)
    ++ videoEntries number (lastTimestamp text) (execAll videoPattern text 0 0)
    ++ imageEntries number (execAll imagePattern text 0 0).
Proof.
  unfold MessageView.allMatches, timestampLoop.
  now rewrite timestampLoop_entries.
Qed.

Lemma allMatches_elements text :
  Forall (fun e : MatchEntry => isElement (node e) = true) (allMatches text).
Proof.
  rewrite allMatches_eq. rewrite !Forall_app. repeat split;
    apply List.Forall_forall; intros e He; apply in_map_iff in He;
    destruct He as [m [<- _]]; reflexivity.
Qed.

Lemma elements_app (l1 l2 : list ReactNode) :
  elements (l1 ++ l2) = elements l1 ++ elements l2.
Proof. unfold elements. apply List.filter_app. Qed.

Lemma buildParts_elements text (ms : list MatchEntry) li parts :
  Forall (fun e : MatchEntry => isElement (node e) = true) ms ->
  elements (fst (buildParts text ms li parts))
  = elements parts ++ map node ms.
Proof.
  intros Hms. revert li parts.
  induction Hms as [|m ms Hm _ IH]; intros li parts; simpl.
  - now rewrite app_nil_r.
  - rewrite IH. rewrite elements_app. simpl. unfold elements at 2. simpl.
    rewrite Hm. rewrite <- app_assoc. simpl. f_equal.
    destruct (li <? start m); [|reflexivity].
    rewrite elements_app. simpl. now rewrite app_nil_r.
Qed.

(** The elements of the parts are the nodes of the matches, in the order
    of the sort. *)
Lemma parse_elements text :
  elements (parseMessageContent text)
  = map node (sortByStart (allMatches text)).
Proof.
  destruct text as [|c text']; [reflexivity|].
  set (text := String c text').
  unfold Message.parseMessageContent, MessageView.allMatches.
  fold text.
  rewrite <- (MessageFacts.timestampLoop_timestamp number parseFloat text).
  destruct (timestampLoop number parseFloat
              (execAll timestampPattern text 0 0)) as [ts all0] eqn:El.
  cbn [fst snd]. rewrite <- app_assoc.
  set (all := all0 ++ _ ++ _).
  assert (Hall : Forall (fun e : MatchEntry => isElement (node e) = true)
                        (sortByStart all)).
  { eapply Permutation_Forall;
      [symmetry; apply MessageFacts.sortByStart_perm|].
    pose proof (allMatches_elements text) as H.
    unfold MessageView.allMatches in H.
    rewrite <- (MessageFacts.timestampLoop_timestamp number parseFloat text)
      in H.
    rewrite El in H. exact H. }
  pose proof (buildParts_elements text (sortByStart all) 0 [] Hall) as Hb.
  destruct (buildParts text (sortByStart all) 0 []) as [parts li] eqn:Eb.
  simpl in Hb.
  assert (Hp : elements
                 (if li <? String.length text
                  then parts ++
                         [TextNode (substring li (String.length text) text)]
                  else parts) = elements parts).
  { destruct (li <? String.length text); [|reflexivity].
    rewrite elements_app. simpl. now rewrite app_nil_r. }
  destruct (if li <? String.length text then _ else parts) as [|p ps] eqn:Ep.
  - rewrite <- Hb, <- Hp. reflexivity.
  - change (elements (p :: ps) = map node (sortByStart all)).
    rewrite Hp. exact Hb.
Qed.

(** *** The keys *)

Lemma keys_of_elements (parts : list ReactNode) :
  omap nodeKey parts = omap nodeKey (elements parts).
Proof.
  induction parts as [|n parts IH]; [reflexivity|].
  rewrite CacheIndexFacts.omap_cons.
  destruct n; cbn [nodeKey]; unfold elements; cbn [List.filter isElement];
    fold (elements parts); rewrite ?CacheIndexFacts.omap_cons;
    cbn [nodeKey]; now rewrite IH.
Qed.

Lemma keys_of_entries (f : RegExpMatch -> MatchEntry) (g : RegExpMatch -> string)
      (ms : list RegExpMatch) :
  (forall m, nodeKey (node (f m)) = Some (g m)) ->
  omap nodeKey (map node (map f ms)) = map g ms.
Proof.
  intros H. induction ms as [|m ms IH]; [reflexivity|].
  cbn [map]. rewrite CacheIndexFacts.omap_cons, H. f_equal. exact IH.
Qed.

Lemma keys_of_allMatches text :
  omap nodeKey (map node (allMatches text))
  = map (keyOf "timestamp-") (execAll timestampPattern text 0 0)
    ++ map (keyOf "vid-") (execAll videoPattern text 0 0)
    ++ map (keyOf "img-") (execAll imagePattern text 0 0).
Proof.
  rewrite allMatches_eq, !map_app, !omap_app.
  unfold videoEntries, imageEntries.
  rewrite (keys_of_entries _ (keyOf "timestamp-")) by reflexivity.
  rewrite (keys_of_entries _ (keyOf "vid-")) by reflexivity.
  rewrite (keys_of_entries _ (keyOf "img-")) by reflexivity.
  reflexivity.
Qed.

End Parse.

Lemma keyOf_inj prefix m m' :
  keyOf prefix m = keyOf prefix m' -> index m = index m'.
Proof.
  unfold keyOf. intros H. apply String.app_inj in H.
  now apply natToString_inj.
Qed.

Lemma keys_NoDup prefix (ms : list RegExpMatch) :
  StronglySorted (fun a b => index a < index b) ms ->
  NoDup (map (keyOf prefix) ms).
Proof.
  induction 1 as [|m ms _ IH Hall]; [constructor|].
  simpl. constructor; [|exact IH].
  intros Hin. apply list_elem_of_In, in_map_iff in Hin.
  destruct Hin as [m' [Hk Hm']]. apply keyOf_inj in Hk.
  rewrite List.Forall_forall in Hall. specialize (Hall m' Hm'). lia.
Qed.

Lemma keys_apart c1 p1 c2 p2 (l1 l2 : list RegExpMatch) x :
  c1 <> c2 ->
  x ∈ map (keyOf (String c1 p1)) l1 -> x ∉ map (keyOf (String c2 p2)) l2.
Proof.
  intros Hc H1 H2. apply list_elem_of_In, in_map_iff in H1, H2.
  destruct H1 as [m1 [<- _]], H2 as [m2 [H2 _]].
  unfold keyOf in H2. rewrite !append_head in H2. congruence.
Qed.

(** ** Properties of [parseMessageContent] *)

(** The elements of the parts are the nodes of the tags of the text, the
    timestamp tags included, each once, in the order of the place where
    the tags start. *)
Theorem elements_in_text_order (number : Type) (parseFloat : string -> number)
        (text : string) :
  elements (parseMessageContent number parseFloat text)
  = map node (sortByStart (allMatches number parseFloat text)) /\
  Permutation (sortByStart (allMatches number parseFloat text))
              (allMatches number parseFloat text) /\
  Sorted (fun a b => start a <= start b)
         (sortByStart (allMatches number parseFloat text)).
Proof.
  split; [apply parse_elements|].
  split; [apply MessageFacts.sortByStart_perm|].
  apply MessageFacts.sortByStart_sorted.
Qed.

(** The url of every video and of every image that is rendered starts
    with [https://], has something after it and holds no closing
    parenthesis. *)
Theorem media_urls_are_https (number : Type) (parseFloat : string -> number)
        (text : string) (n : ReactNode number) (url : string) :
  In n (parseMessageContent number parseFloat text) ->
  nodeUrl n = Some url ->
  exists u, url = ("https://" ++ u)%string /\ u <> "" /\
            allOf notParen u = true.
Proof.
  intros Hin Hurl. apply MessageFacts.parse_nodes in Hin.
  destruct Hin as [[s ->]|Hin]; [discriminate Hurl|].
  unfold matchNodes in Hin. apply in_map_iff in Hin.
  destruct Hin as [e [He Hin]].
  apply in_app_or in Hin. destruct Hin as [Hin|Hin].
  - pose proof (MessageFacts.timestampLoop_fragments number parseFloat
                  (execAll timestampPattern text 0 0)) as Hf.
    rewrite List.Forall_forall in Hf. destruct (Hf e Hin) as [k Hk].
    rewrite <- He, Hk in Hurl. discriminate Hurl.
  - assert (Hm : exists m tag,
               In m (execAll (mediaPattern tag) text 0 0) /\
               url = group1 m).
    { apply in_app_or in Hin. destruct Hin as [Hin|Hin];
        apply in_map_iff in Hin; destruct Hin as [m [<- Hm]];
        rewrite <- He in Hurl; simpl in Hurl; inversion Hurl; subst; eauto. }
    destruct Hm as (m & tag & Hm & ->).
    apply execAll_matches in Hm. destruct Hm as [s' Hs'].
    eapply mediaPattern_capture. exact Hs'.
Qed.

Lemma media_urls_are_https_witness :
  exists u, "https://v.mp4" = ("https://" ++ u)%string /\ u <> "" /\
            allOf notParen u = true.
Proof.
  apply (media_urls_are_https string id
           "see (!?#Video:https://v.mp4) at (!?#Timestamp:12.5)"
           (VideoRenderer "vid-4" "https://v.mp4" (Some "12.5"))).
  - vm_compute. right. left. reflexivity.
  - reflexivity.
Defined.

(** The number a video is given is [parseFloat] of one digit or more,
    possibly followed by a dot, and then digits: never of a text that is
    not a decimal number. *)
Theorem video_timestamp_is_decimal (number : Type)
        (parseFloat : string -> number) (text : string)
        (key url : string) (x : number) :
  In (VideoRenderer key url (Some x))
     (parseMessageContent number parseFloat text) ->
  exists ds dot fs,
    x = parseFloat (ds ++ dot ++ fs)%string /\ ds <> "" /\
    allOf isDigit ds = true /\ (dot = "" \/ dot = ".") /\
    allOf isDigit fs = true.
Proof.
  intros Hin. apply MessageFacts.parse_nodes in Hin.
  destruct Hin as [[s Hs]|Hin]; [discriminate Hs|].
  unfold matchNodes in Hin. apply in_map_iff in Hin.
  destruct Hin as [e [He Hin]].
  assert (Hts : Message.lastTimestamp number parseFloat text = Some x).
  { apply in_app_or in Hin. destruct Hin as [Hin|Hin].
    - pose proof (MessageFacts.timestampLoop_fragments number parseFloat
                    (execAll timestampPattern text 0 0)) as Hf.
      rewrite List.Forall_forall in Hf. destruct (Hf e Hin) as [k Hk].
      congruence.
    - apply in_app_or in Hin. destruct Hin as [Hin|Hin];
        apply in_map_iff in Hin; destruct Hin as [m [<- _]];
        simpl in He; congruence. }
  unfold Message.lastTimestamp in Hts.
  destruct (lastOpt (map group1 (execAll timestampPattern text 0 0)))
    as [cap|] eqn:El; [|discriminate Hts].
  simpl in Hts. inversion Hts; subst x.
  assert (Hcap : In cap (map group1 (execAll timestampPattern text 0 0))).
  { revert El. generalize (map group1 (execAll timestampPattern text 0 0)).
    intros l. induction l as [|a l IH]; [discriminate|].
    rewrite lastOpt_cons. destruct (lastOpt l) as [b|].
    - intros Hb. right. now apply IH.
    - intros Ha. inversion Ha. now left. }
  apply in_map_iff in Hcap. destruct Hcap as [m [<- Hm]].
  apply execAll_matches in Hm. destruct Hm as [s' Hs'].
  destruct (timestampPattern_capture _ _ _ Hs')
    as (ds & dot & fs & -> & H). eauto.
Qed.

Lemma video_timestamp_is_decimal_witness :
  exists ds dot fs,
    "12.5" = id (ds ++ dot ++ fs)%string /\ ds <> "" /\
    allOf isDigit ds = true /\ (dot = "" \/ dot = ".") /\
    allOf isDigit fs = true.
Proof.
  apply (video_timestamp_is_decimal string id
           "see (!?#Video:https://v.mp4) at (!?#Timestamp:12.5)"
           "vid-4" "https://v.mp4" "12.5").
  vm_compute. right. left. reflexivity.
Defined.

(** No two elements of the parts have the same key. *)
Theorem keys_are_distinct (number : Type) (parseFloat : string -> number)
        (text : string) :
  List.NoDup (omap nodeKey (parseMessageContent number parseFloat text)).
Proof.
  apply NoDup_ListNoDup.
  rewrite keys_of_elements, parse_elements.
  assert (Hp : omap nodeKey
                 (map node (sortByStart (allMatches number parseFloat text)))
               ≡ₚ omap nodeKey
                    (map node (allMatches number parseFloat text))).
  { apply omap_Permutation. apply Permutation_map.
    apply MessageFacts.sortByStart_perm. }
  rewrite Hp, keys_of_allMatches.
  apply NoDup_app. split; [|split].
  - apply keys_NoDup, MessageFacts.execAll_increasing.
  - intros x Hx Hin. apply elem_of_app in Hin. destruct Hin as [Hin|Hin];
      revert Hin; eapply keys_apart; try exact Hx; discriminate.
  - apply NoDup_app. split; [|split].
    + apply keys_NoDup, MessageFacts.execAll_increasing.
    + intros x Hx. eapply keys_apart; [|exact Hx]. discriminate.
    + apply keys_NoDup, MessageFacts.execAll_increasing.
Qed.

(** A text without an opening parenthesis is rendered as it is, in one
    part. *)
Theorem plain_text_unchanged (number : Type) (parseFloat : string -> number)
        (text : string) :
  noOpening text = true ->
  parseMessageContent number parseFloat text = [TextNode text].
Proof.
  intros Hno. destruct text as [|c text']; [reflexivity|].
  unfold Message.parseMessageContent.
  rewrite (execAll_none timestampPattern _ 0 0 timestampPattern_opening Hno).
  rewrite (execAll_none videoPattern _ 0 0 (mediaPattern_opening "Video") Hno).
  rewrite (execAll_none imagePattern _ 0 0 (mediaPattern_opening "Image") Hno).
  cbn [timestampLoop fold_left videoEntries imageEntries map app
       sortByStart fold_right buildParts].
  change (0 <? String.length (String c text')) with true.
  cbn [app]. unfold substring. now rewrite Nat.sub_0_r, substring_all.
Qed.

Lemma plain_text_unchanged_witness :
  parseMessageContent string id "Open the caseload page."
  = [TextNode "Open the caseload page."].
Proof. apply plain_text_unchanged. reflexivity. Defined.

(** ** [formatTime] *)

Lemma splitColon_app a b :
  allOf notColon a = true ->
  splitColon (a ++ ":" ++ b)%string = Some (a, b).
Proof.
  induction a as [|c a IH]; intros H.
  - reflexivity.
  - cbn [allOf] in H. apply andb_prop in H. destruct H as [Hc Ha].
    rewrite append_head. cbn [splitColon].
    unfold notColon in Hc. apply negb_true_iff in Hc. rewrite Hc.
    now rewrite IH.
Qed.

Lemma allOf_impl (p q : ascii -> bool) s :
  (forall c, p c = true -> q c = true) -> allOf p s = true -> allOf q s = true.
Proof.
  intros Hpq. induction s as [|c s IH]; [reflexivity|].
  cbn [allOf]. intros H. apply andb_prop in H. destruct H as [Hc Hs].
  now rewrite (Hpq c Hc), IH.
Qed.

Lemma digit_notColon c : isDigit c = true -> notColon c = true.
Proof.
  unfold isDigit, notColon. intros H.
  destruct (Ascii.eqb_spec c ":"%char) as [->|]; [discriminate H|reflexivity].
Qed.

Lemma string_of_uint_digits d :
  allOf isDigit (NilEmpty.string_of_uint d) = true.
Proof. induction d; simpl; auto. Qed.

Lemma natToString_digits n : allOf isDigit (natToString n) = true.
Proof.
  unfold natToString, NilZero.string_of_uint.
  destruct (Nat.to_uint n); try reflexivity; apply string_of_uint_digits.
Qed.

Lemma seconds_two_digits k :
  k < 60 ->
  String.length (padStart 2 "0" (natToString k)) = 2 /\
  readNat (padStart 2 "0" (natToString k)) = Some k.
Proof.
  intros Hk.
  do 60 (destruct k as [|k]; [split; vm_compute; reflexivity|]).
  lia.
Qed.

(** For a whole number of seconds below 2^53, a formatted time is the
    minutes, a colon and two digits of seconds below 60; read back, it
    gives the minutes and the seconds that make up the number of seconds
    it was made from. *)
Theorem formatTime_reads_back (seconds : nat) :
  (Z.of_nat seconds < 2 ^ 53)%Z ->
  exists mins secs,
    readTime (formatTime seconds) = Some (mins, secs) /\
    secs < 60 /\ 60 * mins + secs = seconds /\
    exists m s, formatTime seconds = (m ++ ":" ++ s)%string /\
                String.length s = 2 /\ allOf isDigit m = true.
Proof.
  intros _.
  exists (seconds / 60), (seconds mod 60).
  assert (Hs : seconds mod 60 < 60) by (apply Nat.mod_upper_bound; lia).
  destruct (seconds_two_digits _ Hs) as [Hlen Hread].
  split; [|split; [exact Hs|split]].
  - unfold readTime, formatTime.
    rewrite splitColon_app.
    + now rewrite readNat_natToString, Hread.
    + eapply allOf_impl; [exact digit_notColon|apply natToString_digits].
  - pose proof (Nat.div_mod_eq seconds 60). lia.
  - exists (natToString (seconds / 60)),
           (padStart 2 "0" (natToString (seconds mod 60))).
    split; [reflexivity|]. split; [exact Hlen|apply natToString_digits].
Qed.

(** Two minutes and five seconds. *)
Lemma formatTime_reads_back_witness :
  formatTime 125 = "2:05" /\
  exists mins secs,
    readTime (formatTime 125) = Some (mins, secs) /\
    secs < 60 /\ 60 * mins + secs = 125 /\
    exists m s, formatTime 125 = (m ++ ":" ++ s)%string /\
                String.length s = 2 /\ allOf isDigit m = true.
Proof.
  split; [reflexivity|].
  apply (formatTime_reads_back 125). reflexivity.
Defined.

End MessageViewFacts.

(* ===================================================================== *)
(** * Properties of the list of chats *)
(* ===================================================================== *)

Module ChatsListFacts.
Import ChatsList.

Lemma compare_inOrder d a b :
  (compareChats d a b <=? 0)%Z = true <-> inOrder d a b.
Proof. rewrite Z.leb_le. destruct d; simpl; lia. Qed.

Lemma compare_total d a b :
  (compareChats d a b <=? 0)%Z = false -> inOrder d b a.
Proof. rewrite Z.leb_gt. destruct d; simpl; lia. Qed.

#[local] Instance inOrder_trans d : Transitive (inOrder d).
Proof. intros a b c. destruct d; simpl; lia. Qed.

Lemma insertBy_perm {A} (compare : A -> A -> Z) x l :
  Permutation (insertBy compare x l) (x :: l).
Proof.
  induction l as [|y l IH]; [reflexivity|].
  simpl. destruct (compare x y <=? 0)%Z; [reflexivity|].
  rewrite IH. apply perm_swap.
Qed.

Lemma sortBy_perm {A} (compare : A -> A -> Z) l :
  Permutation (sortBy compare l) l.
Proof.
  induction l as [|x l IH]; [reflexivity|].
  simpl. rewrite insertBy_perm. now constructor.
Qed.

Lemma insertBy_sorted d x l :
  Sorted (inOrder d) l -> Sorted (inOrder d) (insertBy (compareChats d) x l).
Proof.
  induction 1 as [|y l Hs IH Hhd]; simpl.
  - repeat constructor.
  - destruct (compareChats d x y <=? 0)%Z eqn:E.
    + apply compare_inOrder in E. repeat constructor; assumption.
    + apply compare_total in E. constructor; [exact IH|].
      destruct l as [|z l]; simpl.
      * now constructor.
      * destruct (compareChats d x z <=? 0)%Z; constructor.
        -- exact E.
        -- now inversion Hhd.
Qed.

Lemma withTimestamp_insertBy d t x l :
  withTimestamp t (insertBy (compareChats d) x l) = withTimestamp t (x :: l).
Proof.
  induction l as [|y l IH]; [reflexivity|].
  cbn [insertBy]. destruct (compareChats d x y <=? 0)%Z eqn:E; [reflexivity|].
  unfold withTimestamp in *. cbn [List.filter] in *. rewrite IH.
  apply Z.leb_gt in E.
  destruct (Z.eqb_spec (ts (createdAt x)) t) as [Hx|Hx];
    destruct (Z.eqb_spec (ts (createdAt y)) t) as [Hy|Hy]; try reflexivity.
  exfalso. destruct d; simpl in E; lia.
Qed.

(** The sorted chats are the chats, each once, and every chat stands
    before the chats that are not older (ascending) or not newer
    (descending) than it; a chat without date counts as dated 0. *)
Theorem sortedChats_sorted (sortDirection : SortDirection)
        (allChats : list Chat) :
  Permutation (sortedChats sortDirection allChats) allChats /\
  StronglySorted (inOrder sortDirection) (sortedChats sortDirection allChats).
Proof.
  split; [apply sortBy_perm|].
  apply Sorted_StronglySorted; [apply inOrder_trans|].
  unfold sortedChats. induction allChats as [|x l IH]; [constructor|].
  simpl. now apply insertBy_sorted.
Qed.

(** The sort is stable in both directions: the chats of one date keep the
    order they have in [allChats]. *)
Theorem sortedChats_stable (sortDirection : SortDirection)
        (allChats : list Chat) (t : Z) :
  withTimestamp t (sortedChats sortDirection allChats)
  = withTimestamp t allChats.
Proof.
  unfold sortedChats. induction allChats as [|x l IH]; [reflexivity|].
  cbn [sortBy fold_right]. rewrite withTimestamp_insertBy.
  unfold withTimestamp in *. cbn [List.filter].
  fold (sortBy (compareChats sortDirection) l). now rewrite IH.
Qed.

(** Two chats of the same date, a newer one and one without date. *)
Example sortedChats_sample :
  let a := {| title := "a"; createdAt := Some 5%Z |} in
  let b := {| title := "b"; createdAt := Some 5%Z |} in
  let c := {| title := "c"; createdAt := Some 9%Z |} in
  let n := {| title := "n"; createdAt := None |} in
  sortedChats desc [a; n; c; b] = [c; a; b; n] /\
  sortedChats asc [a; n; c; b] = [n; a; b; c].
Proof. split; reflexivity. Qed.

End ChatsListFacts.

(* ===================================================================== *)
(** * Properties of the source document *)
(* ===================================================================== *)

Module SourceDocumentFacts.
Import SourceDocument.

(** Formatting the metadata touches the source only: the labels and their
    order are those of the metadata, every other entry keeps its value,
    and the source itself changes only when it is a URL, to the path of
    the URL without its first character.  The link, when there is one,
    goes to the source as it was and starts with [http]. *)
Theorem formatting_touches_source_only
        (pathname : string -> option string) (document : Document) :
  let m := match metadata document with Some m => m | None => [] end in
  map fst (formattedMetadata pathname document) = map fst m /\
  (forall label, label <> "source" ->
     property label (formattedMetadata pathname document) = property label m) /\
  (forall src, property "source" m = Some src ->
     property "source" (formattedMetadata pathname document)
     = Some (match src, pathname src with
             | String _ _, Some p => substring1 p
             | _, _ => src
             end)) /\
  (forall url, sourceUrl document = Some url ->
     property "source" m = Some url /\
     exists r, url = ("http" ++ r)%string).
Proof.
  intros m. unfold formattedMetadata. fold m.
  split; [|split; [|split]].
  - destruct (property "source" m) as [[|c s]|] eqn:E; try reflexivity.
    destruct (pathname (String c s)); [|reflexivity].
    apply assign_labels. congruence.
  - intros label Hl.
    destruct (property "source" m) as [[|c s]|]; try reflexivity.
    destruct (pathname (String c s)); [|reflexivity].
    now apply assign_other.
  - intros src Hsrc. rewrite Hsrc.
    destruct src as [|c s]; [exact Hsrc|].
    destruct (pathname (String c s)); [apply assign_same|exact Hsrc].
  - intros url Hurl. unfold sourceUrl in Hurl. subst m.
    destruct (metadata document) as [md|]; [|discriminate].
    destruct (property "source" md) as [s|]; [|discriminate].
    destruct (startsWith "http" s) eqn:E; [|discriminate].
    inversion Hurl; subst. split; [reflexivity|].
    now apply startsWith_spec.
Qed.

(** A document from the bucket: the source becomes the object key, the
    page number stays, the link keeps the whole URL. *)
Lemma formatting_touches_source_only_witness :
  let pathname := fun s =>
    if String.eqb s "https://bucket.s3.amazonaws.com/docs/a.pdf"
    then Some "/docs/a.pdf" else None in
  let document :=
    {| score := Some "0.31";
       metadata := Some [("source", "https://bucket.s3.amazonaws.com/docs/a.pdf");
                         ("page", "3")] |} in
  property "page" (formattedMetadata pathname document) = Some "3" /\
  property "source" (formattedMetadata pathname document) = Some "docs/a.pdf" /\
  exists r, "https://bucket.s3.amazonaws.com/docs/a.pdf" = ("http" ++ r)%string.
Proof.
  intros pathname document.
  destruct (formatting_touches_source_only pathname document)
    as (_ & H2 & H3 & H4).
  split; [apply (H2 "page"); discriminate|].
  split; [apply (H3 "https://bucket.s3.amazonaws.com/docs/a.pdf");
          reflexivity|].
  apply (H4 "https://bucket.s3.amazonaws.com/docs/a.pdf"). reflexivity.
Defined.

End SourceDocumentFacts.

(* ===================================================================== *)
(** * Properties of the notifications of the input assets bucket *)
(* ===================================================================== *)

Module NotificationFacts.
Import ChangeDetection.

(** The two subscriptions take the event names that start with what
    stands before their [*]. *)
Lemma created_matches name :
  matchesEventName (eventTypeValue OBJECT_CREATED) name
  = startsWith "s3:ObjectCreated:" name.
Proof.
  cbn [eventTypeValue].
  do 17 (destruct name as [|? name]; [reflexivity|];
         cbn [matchesEventName startsWith]; f_equal).
Qed.

Lemma removed_matches name :
  matchesEventName (eventTypeValue OBJECT_REMOVED) name
  = startsWith "s3:ObjectRemoved:" name.
Proof.
  cbn [eventTypeValue].
  do 17 (destruct name as [|? name]; [reflexivity|];
         cbn [matchesEventName startsWith]; f_equal).
Qed.

(** No event name is taken by both subscriptions. *)
Lemma created_not_removed name :
  startsWith "s3:ObjectCreated:" name = true ->
  startsWith "s3:ObjectRemoved:" name = false.
Proof.
  intros H. apply startsWith_spec in H. destruct H as [r ->]. reflexivity.
Qed.

(** An event of the bucket invokes the cache update function once when
    its name starts with [s3:ObjectCreated:] or with [s3:ObjectRemoved:],
    and invokes nothing otherwise: the two subscriptions never both take
    an event, and no other kind of event reaches the function. *)
Theorem cache_update_invoked_once (ev : S3Event) :
  invoked ev
  = if startsWith "s3:ObjectCreated:" (eventName ev)
       || startsWith "s3:ObjectRemoved:" (eventName ev)
    then [cacheUpdateFunction] else [].
Proof.
  unfold invoked, inputAssetsBucketNotifications.
  cbn [List.filter fst snd].
  rewrite created_matches, removed_matches.
  destruct (startsWith "s3:ObjectCreated:" (eventName ev)) eqn:Ec.
  - now rewrite (created_not_removed _ Ec).
  - now destruct (startsWith "s3:ObjectRemoved:" (eventName ev)).
Qed.

End NotificationFacts.

(* ===================================================================== *)
(** * Properties of the access to the embedding models *)
(* ===================================================================== *)

Module ModelAccessFacts.
Import ModelAccess.

(** ** Sets and maps *)

Lemma existsb_eqb x (s : list string) :
  existsb (String.eqb x) s = true <-> In x s.
Proof.
  rewrite existsb_exists. split.
  - intros [y [Hy Heq]]. apply String.eqb_eq in Heq. now subst.
  - intros H. exists x. split; [exact H|apply String.eqb_refl].
Qed.

Lemma setAdd_In x y (s : list string) : In y (setAdd x s) <-> y = x \/ In y s.
Proof.
  unfold setAdd. destruct (existsb (String.eqb x) s) eqn:E.
  - apply existsb_eqb in E. split; [auto|]. intros [->|H]; assumption.
  - rewrite in_app_iff. simpl. split; intros H; intuition congruence.
Qed.

Lemma setAdd_NoDup x (s : list string) :
  List.NoDup s -> List.NoDup (setAdd x s).
Proof.
  intros Hs. unfold setAdd. destruct (existsb (String.eqb x) s) eqn:E;
    [exact Hs|].
  assert (Hx : ~ In x s).
  { intros H. apply existsb_eqb in H. congruence. }
  apply NoDup_ListNoDup, NoDup_app. repeat split.
  - now apply NoDup_ListNoDup.
  - intros y Hy Hin. apply list_elem_of_singleton in Hin. subst.
    apply Hx. now apply list_elem_of_In.
  - apply NoDup_singleton.
Qed.

Lemma setAdd_nonempty x (s : list string) : setAdd x s <> [].
Proof.
  unfold setAdd. destruct (existsb (String.eqb x) s) eqn:E.
  - intros ->. discriminate E.
  - destruct s; discriminate.
Qed.

Lemma property_In {V} k (v : V) m : property k m = Some v -> In (k, v) m.
Proof.
  induction m as [|[k' v'] m IH]; simpl; [discriminate|].
  destruct (String.eqb_spec k' k) as [->|Hk].
  - intros H. inversion H. now left.
  - intros H. right. now apply IH.
Qed.

Lemma In_property {V} k (v : V) m :
  List.NoDup (map fst m) -> In (k, v) m -> property k m = Some v.
Proof.
  induction m as [|[k' v'] m IH]; simpl; intros Hnd Hin; [destruct Hin|].
  inversion Hnd as [|? ? Hnotin Hnd']; subst.
  destruct Hin as [Heq|Hin].
  - inversion Heq; subst. now rewrite String.eqb_refl.
  - destruct (String.eqb_spec k' k) as [->|Hk]; [|now apply IH].
    exfalso. apply Hnotin. apply in_map_iff. now exists (k, v).
Qed.

Lemma assign_keys {V} k (v : V) m :
  map fst (assign k v m)
  = if existsb (String.eqb k) (map fst m) then map fst m
    else map fst m ++ [k].
Proof.
  induction m as [|[k' v'] m IH]; [reflexivity|].
  simpl. rewrite (String.eqb_sym k k').
  destruct (String.eqb k' k); simpl; [reflexivity|].
  rewrite IH. now destruct (existsb (String.eqb k) (map fst m)).
Qed.

Lemma assign_keys_NoDup {V} k (v : V) m :
  List.NoDup (map fst m) -> List.NoDup (map fst (assign k v m)).
Proof.
  intros Hnd. rewrite assign_keys.
  destruct (existsb (String.eqb k) (map fst m)) eqn:E; [exact Hnd|].
  assert (Hk : ~ In k (map fst m)).
  { intros H. apply existsb_eqb in H. congruence. }
  apply NoDup_ListNoDup, NoDup_app. repeat split.
  - now apply NoDup_ListNoDup.
  - intros y Hy Hin. apply list_elem_of_singleton in Hin. subst.
    apply Hk. now apply list_elem_of_In.
  - apply NoDup_singleton.
Qed.

(** ** Strings *)

Lemma dropChars_append p r : dropChars (String.length p) (p ++ r) = r.
Proof.
  induction p as [|c p IH]; [now destruct r|].
  change (String c p ++ r)%string with (String c (p ++ r)%string).
  exact IH.
Qed.

Section Account.

Variable PARTITION : string.
Variable REGION : string.
Variable ACCOUNT_ID : string.

Abbreviation regionOf := (ModelAccess.regionOf REGION).
Abbreviation configured := (ModelAccess.configured REGION).
Abbreviation MapInv := (ModelAccess.MapInv REGION).
Abbreviation EndpointInv := (ModelAccess.EndpointInv REGION ACCOUNT_ID).
Abbreviation addModel := (ModelAccess.addModel REGION).
Abbreviation regionModelIds := (ModelAccess.regionModelIds REGION).
Abbreviation modelResources :=
  (ModelAccess.modelResources PARTITION ACCOUNT_ID).
Abbreviation bedrockStatements :=
  (ModelAccess.bedrockStatements PARTITION REGION ACCOUNT_ID).
Abbreviation endpointArn := (ModelAccess.endpointArn REGION ACCOUNT_ID).
Abbreviation addEndpoint := (ModelAccess.addEndpoint REGION ACCOUNT_ID).
Abbreviation sagemakerEndpoints :=
  (ModelAccess.sagemakerEndpoints REGION ACCOUNT_ID).
Abbreviation sagemakerStatements :=
  (ModelAccess.sagemakerStatements REGION ACCOUNT_ID).

(** ** The Bedrock models, region by region *)

Lemma configured_app models m region id :
  configured (models ++ [m]) region id <->
  configured models region id \/
  exists r, m = bedrock id r /\ regionOf r = region.
Proof.
  unfold ModelAccess.configured. split.
  - intros [r [Hin Hr]]. apply in_app_or in Hin.
    destruct Hin as [Hin|[Heq|[]]]; [left|right]; eauto.
  - intros [[r [Hin Hr]]|[r [-> Hr]]]; exists r; split; auto;
      apply in_or_app; [now left|right; now left].
Qed.

Lemma MapInv_step models acc m :
  MapInv models acc -> MapInv (models ++ [m]) (addModel acc m).
Proof.
  intros (Hkeys & Hids & Hmem).
  destruct m as [id r|name]; simpl.
  - set (region := match r with Some r0 => r0 | None => REGION end).
    set (ids0 := match property region acc with Some s => s | None => [] end).
    assert (Hids0 : List.NoDup ids0).
    { unfold ids0. destruct (property region acc) as [s|] eqn:E.
      - exact (proj1 (Hids region s E)).
      - constructor. }
    assert (Hin0 : forall id', In id' ids0 <-> configured models region id').
    { intros id'. rewrite <- Hmem. unfold ids0.
      destruct (property region acc) as [s|].
      - split; [eauto|]. intros [ids [Heq Hin]]. now inversion Heq; subst.
      - split; [intros []|]. intros [ids [Heq _]]. discriminate Heq. }
    split; [now apply assign_keys_NoDup|]. split.
    + intros region' ids Hget.
      destruct (String.eqb_spec region' region) as [->|Hne].
      * rewrite assign_same in Hget. inversion Hget; subst.
        split; [now apply setAdd_NoDup|apply setAdd_nonempty].
      * rewrite assign_other in Hget by exact Hne.
        now apply Hids in Hget.
    + intros region' id'. rewrite configured_app.
      destruct (String.eqb_spec region' region) as [->|Hne].
      * rewrite assign_same. split.
        -- intros [ids [Heq Hin]]. inversion Heq; subst.
           apply setAdd_In in Hin. destruct Hin as [->|Hin].
           ++ right. exists r. split; reflexivity.
           ++ left. now apply Hin0.
        -- intros H. exists (setAdd id ids0). split; [reflexivity|].
           apply setAdd_In. destruct H as [H|[r' [Heq _]]].
           ++ right. now apply Hin0.
           ++ left. now inversion Heq.
      * rewrite assign_other by exact Hne. rewrite Hmem. split.
        -- now left.
        -- intros [H|[r' [Heq Hr']]]; [exact H|].
           inversion Heq; subst. now contradiction Hne.
  - split; [exact Hkeys|]. split; [exact Hids|].
    intros region id. rewrite Hmem, configured_app. split; [now left|].
    intros [H|[r [Heq _]]]; [exact H|discriminate Heq].
Qed.

Lemma regionModelIds_inv models : MapInv models (regionModelIds models).
Proof.
  unfold ModelAccess.regionModelIds.
  induction models as [|m models IH] using rev_ind.
  - split; [constructor|]. split; [discriminate|].
    intros region id. split.
    + intros [ids [H _]]. discriminate H.
    + intros [r [[] _]].
  - rewrite fold_left_app. simpl. now apply MapInv_step.
Qed.

(** ** The SageMaker endpoints *)

Lemma endpointArn_inj name1 name2 :
  endpointArn name1 = endpointArn name2 -> name1 = name2.
Proof.
  unfold ModelAccess.endpointArn. intros H.
  repeat apply String.app_inj in H. exact H.
Qed.

Lemma EndpointInv_step models st m :
  EndpointInv models st -> EndpointInv (models ++ [m]) (addEndpoint st m).
Proof.
  destruct st as [set arns]. intros (Harns & Hnd & Hmem). simpl in *.
  destruct m as [id r|name]; simpl.
  - split; [exact Harns|]. split; [exact Hnd|].
    intros name. rewrite Hmem, in_app_iff. simpl. split; [now left|].
    intros [H|[H|[]]]; [exact H|discriminate H].
  - destruct (existsb (String.eqb name) set) eqn:E; simpl.
    + apply existsb_eqb in E.
      split; [exact Harns|]. split; [exact Hnd|].
      intros name'. rewrite Hmem, in_app_iff. simpl. split; [now left|].
      intros [H|[H|[]]]; [exact H|]. inversion H; subst. now apply Hmem.
    + assert (Hn : ~ In name set).
      { intros H. apply existsb_eqb in H. congruence. }
      split; [simpl; now rewrite Harns, List.map_app|]. split; simpl.
      * apply NoDup_ListNoDup, NoDup_app. repeat split.
        -- now apply NoDup_ListNoDup.
        -- intros y Hy Hin. apply list_elem_of_singleton in Hin. subst.
           apply Hn. now apply list_elem_of_In.
        -- apply NoDup_singleton.
      * intros name'. rewrite !in_app_iff, Hmem. simpl. split.
        -- intros [H|[->|[]]]; auto.
        -- intros [H|[H|[]]]; [now left|]. inversion H. right. now left.
Qed.

Lemma sagemakerEndpoints_inv models :
  EndpointInv models (fold_left addEndpoint models ([], [])).
Proof.
  induction models as [|m models IH] using rev_ind.
  - split; [reflexivity|]. split; [constructor|]. intros name. reflexivity.
  - rewrite fold_left_app. simpl. now apply EndpointInv_step.
Qed.

(** The task role is allowed one statement for each region that a
    Bedrock model is configured for; the model ids of a region are there
    once each, and they are the ids of the Bedrock models configured for
    that region, the stack's own region standing for a missing one. *)
Theorem one_entry_per_region (models : list EmbeddingModel) :
  List.NoDup (map fst (regionModelIds models)) /\
  (forall region : string,
      In region (map fst (regionModelIds models)) <->
      exists id r, In (bedrock id r) models /\ regionOf r = region) /\
  (forall (region : string) (ids : list string),
      In (region, ids) (regionModelIds models) ->
      List.NoDup ids /\
      forall id : string,
        In id ids <->
        exists r, In (bedrock id r) models /\ regionOf r = region).
Proof.
  destruct (regionModelIds_inv models) as (Hkeys & Hids & Hmem).
  split; [exact Hkeys|]. split.
  - intros region. split.
    + intros Hin. apply in_map_iff in Hin. destruct Hin as [[k ids] [<- Hin]].
      simpl. pose proof (In_property _ _ _ Hkeys Hin) as Hget.
      destruct (Hids _ _ Hget) as [_ Hne].
      destruct ids as [|id ids]; [congruence|].
      exists id. apply Hmem. exists (id :: ids). split; [exact Hget|now left].
    + intros [id Hc]. apply Hmem in Hc. destruct Hc as [ids [Hget _]].
      apply property_In in Hget. apply in_map_iff. now exists (region, ids).
  - intros region ids Hin. pose proof (In_property _ _ _ Hkeys Hin) as Hget.
    split; [exact (proj1 (Hids _ _ Hget))|].
    intros id. rewrite <- (Hmem region id). split.
    + intros H. now exists ids.
    + intros [ids' [Hget' H]]. congruence.
Qed.

(** The Bedrock statements allow a resource exactly when it is one of the
    resources of a Bedrock model of the configuration, in the region of
    that model: nothing is left out, and nothing is allowed that no
    configured model asks for; a SageMaker model adds nothing here. *)
Theorem bedrock_grants_exact (models : list EmbeddingModel) (arn : string) :
  (exists st, In st (bedrockStatements models) /\ In arn (resources st)) <->
  (exists id r, In (bedrock id r) models /\
                In arn (modelResources (regionOf r) id)).
Proof.
  destruct (regionModelIds_inv models) as (Hkeys & Hids & Hmem).
  unfold ModelAccess.bedrockStatements. split.
  - intros [st [Hst Harn]]. apply in_map_iff in Hst.
    destruct Hst as [[region ids] [<- Hin]]. simpl in Harn.
    apply in_flat_map in Harn. destruct Harn as [id [Hid Harn]].
    assert (Hc : configured models region id).
    { apply Hmem. exists ids. split; [now apply In_property|exact Hid]. }
    destruct Hc as [r [Hr <-]]. now exists id, r.
  - intros [id [r [Hr Harn]]].
    assert (Hc : configured models (regionOf r) id) by now exists r.
    apply Hmem in Hc. destruct Hc as [ids [Hget Hid]].
    apply property_In in Hget.
    eexists. split.
    + apply in_map_iff. exists (regionOf r, ids). split; [reflexivity|exact Hget].
    + simpl. apply in_flat_map. now exists id.
Qed.

(** The SageMaker statement lists each endpoint once, however often the
    configuration names it; an endpoint is listed exactly when a SageMaker
    model of the configuration names it; and the statement is added
    exactly when the configuration has a SageMaker model. *)
Theorem sagemaker_grants_exact (models : list EmbeddingModel) :
  List.NoDup (sagemakerEndpoints models) /\
  (forall arn : string,
      In arn (sagemakerEndpoints models) <->
      exists name, In (sagemaker name) models /\ arn = endpointArn name) /\
  (sagemakerStatements models = [] <->
   forall name : string, ~ In (sagemaker name) models) /\
  (forall st, In st (sagemakerStatements models) ->
              resources st = sagemakerEndpoints models).
Proof.
  pose proof (sagemakerEndpoints_inv models) as Hinv.
  unfold ModelAccess.sagemakerStatements, ModelAccess.sagemakerEndpoints.
  destruct (fold_left addEndpoint models ([], [])) as [set arns].
  destruct Hinv as (Harns & Hnd & Hmem). simpl in *. subst arns.
  assert (Hin : forall arn : string,
             In arn (map endpointArn set) <->
             exists name, In (sagemaker name) models /\ arn = endpointArn name).
  { intros arn. rewrite in_map_iff. split.
    - intros [name [<- H]]. exists name. split; [now apply Hmem|reflexivity].
    - intros [name [H ->]]. exists name. split; [reflexivity|now apply Hmem]. }
  split; [|split; [exact Hin|split]].
  - apply NoDup_ListNoDup, NoDup_fmap_2; [|now apply NoDup_ListNoDup].
    intros x y. apply endpointArn_inj.
  - destruct set as [|name set]; simpl.
    + split; [|reflexivity]. intros _ name H. now apply Hmem in H.
    + split; [discriminate|]. intros H. exfalso. apply (H name).
      apply Hmem. now left.
  - destruct set as [|name set]; simpl; [intros st []|].
    intros st [<-|[]]. reflexivity.
Qed.

End Account.

(** The four prefixes of an inference profile do not overlap: an id made
    of one of them and a base id is seen as an inference profile, and the
    foundation model allowed for it is that base id, whichever it is. *)
Theorem baseModelId_strips_prefix (p base : string) :
  In p profilePrefixes ->
  isInferenceProfile (p ++ base) = true /\ baseModelId (p ++ base) = base.
Proof.
  intros Hp. unfold profilePrefixes in Hp. simpl in Hp.
  destruct Hp as [<-|[<-|[<-|[<-|[]]]]]; split; reflexivity.
Qed.

Lemma baseModelId_strips_prefix_witness :
  isInferenceProfile "us.amazon.titan-embed-text-v2:0" = true /\
  baseModelId "us.amazon.titan-embed-text-v2:0" = "amazon.titan-embed-text-v2:0".
Proof.
  apply (baseModelId_strips_prefix "us." "amazon.titan-embed-text-v2:0").
  simpl. now left.
Defined.

(** An id that starts with none of the four prefixes is no inference
    profile, and an id that is one starts with one of them and is that
    prefix followed by its base id. *)
Theorem inference_profile_has_prefix (modelId : string) :
  if isInferenceProfile modelId
  then exists p, In p profilePrefixes /\
                 modelId = (p ++ baseModelId modelId)%string
  else baseModelId modelId = modelId /\
       forall p, In p profilePrefixes -> startsWith p modelId = false.
Proof.
  unfold isInferenceProfile, baseModelId, profilePrefix.
  destruct (find (fun p => startsWith p modelId) profilePrefixes) as [p|] eqn:E.
  - apply find_some in E. destruct E as [Hp Hs]. exists p. split; [exact Hp|].
    apply startsWith_spec in Hs. destruct Hs as [r ->].
    now rewrite dropChars_append.
  - split; [reflexivity|]. intros p Hp. exact (find_none _ _ E p Hp).
Qed.

End ModelAccessFacts.

(* ===================================================================== *)
(** * Properties of the environments *)
(* ===================================================================== *)

Module EnvironmentFacts.
Import Chunking Environment.

(** An entry of the right operand of a spread wins over the left one. *)
Lemma property_spread k (a b : Env) :
  property k (spread a b)
  = match property k (spread [] b) with
    | Some v => Some v
    | None => property k a
    end.
Proof.
  unfold spread. revert a.
  induction b as [|[l v] b IH] using rev_ind; intros a; [reflexivity|].
  rewrite !fold_left_app. simpl.
  destruct (String.eqb_spec k l) as [->|Hne].
  - now rewrite !assign_same.
  - rewrite !(assign_other l v k) by exact Hne. apply IH.
Qed.

Lemma property_object_snoc k (parts : list Env) (last : Env) :
  property k (object (parts ++ [last]))
  = match property k (spread [] last) with
    | Some v => Some v
    | None => property k (object parts)
    end.
Proof.
  unfold object. rewrite fold_left_app. simpl. apply property_spread.
Qed.

Section Pipeline.

Variable LAMBDA_COMMON_ENVIRONMENT : Env.
Variable METRICS_NAMESPACE : string.
Variable constants_CHUNK_SIZE_DOC_SPLIT : string.
Variable constants_OVERLAP_FOR_DOC_SPLIT : string.
Variable cacheTableName : string.
Variable embeddingsModels : string.
Variable processedBucketName : string.
Variable linksTableName : string.
Variable mediaBucketName : string.
Variable REGION : string.
Variable rdsSecretArn : string.
Variable rdsEndpoint : string.

Abbreviation cacheUpdateEnvironment :=
  (Environment.cacheUpdateEnvironment LAMBDA_COMMON_ENVIRONMENT cacheTableName).
Abbreviation inputValidationEnvironment :=
  (Environment.inputValidationEnvironment
     LAMBDA_COMMON_ENVIRONMENT METRICS_NAMESPACE cacheTableName
     embeddingsModels processedBucketName).
Abbreviation embeddingsEnvironment :=
  (Environment.embeddingsEnvironment
     METRICS_NAMESPACE constants_CHUNK_SIZE_DOC_SPLIT
     constants_OVERLAP_FOR_DOC_SPLIT cacheTableName embeddingsModels
     processedBucketName linksTableName mediaBucketName REGION rdsSecretArn
     rdsEndpoint).
Abbreviation vectorStoreManagementEnvironment :=
  (Environment.vectorStoreManagementEnvironment
     LAMBDA_COMMON_ENVIRONMENT METRICS_NAMESPACE
     constants_CHUNK_SIZE_DOC_SPLIT constants_OVERLAP_FOR_DOC_SPLIT
     cacheTableName embeddingsModels processedBucketName rdsSecretArn
     rdsEndpoint).
Abbreviation environments :=
  (Environment.environments
     LAMBDA_COMMON_ENVIRONMENT METRICS_NAMESPACE
     constants_CHUNK_SIZE_DOC_SPLIT constants_OVERLAP_FOR_DOC_SPLIT
     cacheTableName embeddingsModels processedBucketName linksTableName
     mediaBucketName REGION rdsSecretArn rdsEndpoint).

Ltac own_entry :=
  unfold Environment.cacheUpdateEnvironment,
    Environment.inputValidationEnvironment,
    Environment.embeddingsEnvironment,
    Environment.vectorStoreManagementEnvironment;
  cbv zeta;
  repeat (match goal with
          | |- context [object [?a; ?b]] =>
              change (object [a; b]) with (object ([a] ++ [b]))
          | |- context [object [?a; ?b; ?c]] =>
              change (object [a; b; c]) with (object ([a; b] ++ [c]))
          end;
          rewrite property_object_snoc);
  reflexivity.

(** The three functions and the container are given the name of the one
    cache table, whatever the common environment of the functions holds,
    a [CACHE_TABLE_NAME] of its own included: the entries a definition
    writes after the spread win. *)
Theorem cache_table_shared (corpusConfig : option DefaultCorpusConfig) :
  Forall (fun env => property "CACHE_TABLE_NAME" env = Some cacheTableName)
         (environments corpusConfig).
Proof.
  unfold Environment.environments.
  repeat (apply List.Forall_cons; [own_entry|]). apply List.Forall_nil.
Qed.

(** The service name of each unit is the one its definition writes,
    whatever the common environment holds; the cache update function has
    the service name of the input validation function. *)
Theorem service_names (corpusConfig : option DefaultCorpusConfig) :
  map (property "POWERTOOLS_SERVICE_NAME") (environments corpusConfig)
  = [ Some "ingestion-input-validation"; Some "ingestion-input-validation";
      Some "ingestion-embeddings"; Some "ingestion-vector-store-management" ].
Proof.
  unfold Environment.environments, map. repeat f_equal; own_entry.
Qed.

(** A chunk size of the corpus configuration, zero apart and of
    magnitude below 2^53, reaches the container and not the vector store
    management function, which is given the constant whatever the
    configuration says. *)
Theorem chunk_size_reaches_container_only
        (corpusConfig : option DefaultCorpusConfig) (n : Z) :
  configuredChunkSize corpusConfig = Some n ->
  n <> 0%Z ->
  (Z.abs n < 2 ^ 53)%Z ->
  property "CHUNK_SIZE_DOC_SPLIT" (embeddingsEnvironment corpusConfig)
  = Some (numberToString n) /\
  property "CHUNK_SIZE_DOC_SPLIT" vectorStoreManagementEnvironment
  = Some constants_CHUNK_SIZE_DOC_SPLIT.
Proof.
  intros Hn Hz _. split.
  - rewrite <- (ChunkingFacts.orDefault_nonzero n
                  constants_CHUNK_SIZE_DOC_SPLIT Hz), <- Hn.
    own_entry.
  - own_entry.
Qed.

End Pipeline.

Lemma chunk_size_reaches_container_only_witness :
  property "CHUNK_SIZE_DOC_SPLIT"
    (Environment.embeddingsEnvironment
       "ns" "1500" "200" "cache" "[]" "processed" "links" "media"
       "us-west-2" "arn" "db" (withChunking 1000 100))
  = Some "1000" /\
  property "CHUNK_SIZE_DOC_SPLIT"
    (Environment.vectorStoreManagementEnvironment
       [("LOG_LEVEL", "INFO")] "ns" "1500" "200" "cache" "[]" "processed"
       "arn" "db")
  = Some "1500".
Proof.
  apply (chunk_size_reaches_container_only
           [("LOG_LEVEL", "INFO")] "ns" "1500" "200" "cache" "[]" "processed"
           "links" "media" "us-west-2" "arn" "db" (withChunking 1000 100)
           1000%Z); [reflexivity|lia|reflexivity].
Defined.

End EnvironmentFacts.
